(** * Wordle leaderboard bot: result parsing, scoring and ranking

    A shallow embedding of [main.go]: the text extraction of
    [processWordleResultsMessage], [cleanUsername],
    [updateScoresBasedOnResults], [updateCumulativeScore] and the query and
    loop of [sendLeaderboard], together with the properties of the
    specification that concern them.

    Conventions.
    - A Go [string] is a sequence of bytes: [bytes] is [list ascii]; map keys
      are [string].
    - A Go [int] is a 64-bit two's complement integer: a [Z] in
      [[minInt, maxInt]], with the wrap-around of [+] written out ([int_add]).
    - The [leaderboard] table ([username] is [UNIQUE]) is a finite map from
      the username to the two integer columns.
    - Calls to the database driver may fail; which ones do is an input of
      the model ([Faults]). *)

From Stdlib Require Import ZArith NArith Ascii Lia.
From Stdlib Require Import Floats.SpecFloat.
From Stdlib Require QArith.
From stdpp Require Import gmap strings list fin_maps sorting.

Local Open Scope Z_scope.

(** ** Byte strings *)

Abbreviation bytes := (list ascii).

Definition B (s : string) : bytes := String.list_ascii_of_string s.
Definition text (b : bytes) : string := String.string_of_list_ascii b.

Definition code (c : ascii) : N := N_of_ascii c.

(** Line feed, the separator of [strings.Split(message, "\n")]. *)
Definition LF : ascii := ascii_of_N 10.

Definition byte_in (l : list N) (c : ascii) : bool :=
  existsb (N.eqb (code c)) l.

(** [strings.HasPrefix]. *)
Fixpoint HasPrefix (s prefix : bytes) : bool :=
  match prefix, s with
  | [], _ => true
  | p :: prefix', c :: s' => Ascii.eqb c p && HasPrefix s' prefix'
  | _ :: _, [] => false
  end.

(** [strings.Split(s, sep)] for a separator of one byte: the pieces between
    the separators, one more than there are separators. *)
Fixpoint Split (s : bytes) (sep : ascii) : list bytes :=
  match s with
  | [] => [[]]
  | c :: r =>
      if Ascii.eqb c sep then [] :: Split r sep
      else match Split r sep with
           | p :: ps => (c :: p) :: ps
           | [] => [[c]]
           end
  end.

(** ** The two regular expressions *)

(** [\d]: an ASCII digit. *)
Definition isDigit (c : ascii) : bool :=
  (48 <=? code c)%N && (code c <=? 57)%N.

(** [\s] of Go's regexp syntax is [[\t\n\f\r ]]; [\S] is its complement. *)
Definition isRegexSpace (c : ascii) : bool := byte_in [9; 10; 12; 13; 32]%N c.

(** The longest run of digits at the start of [s]: what the greedy [\d+]
    takes. *)
Fixpoint leadingDigits (s : bytes) : bytes :=
  match s with
  | c :: r => if isDigit c then c :: leadingDigits r else []
  | [] => []
  end.

(** The match of [(\d+)/6|X/6] that starts at the first byte of [s], or the
    empty string when there is none.  The first alternative is tried first;
    its [\d+] is greedy, and giving back digits cannot help since the next
    byte must be [/]. *)
Definition scoreRegex_at (s : bytes) : bytes :=
  let ds := leadingDigits s in
  if negb (bool_decide (ds = [])) && HasPrefix (drop (length ds) s) (B "/6")
  then ds ++ B "/6"
  else if HasPrefix s (B "X/6") then B "X/6"
  else [].

(** [scoreRegex.FindString(line)]: the leftmost match, [""] when the line has
    none. *)
Fixpoint scoreRegex_FindString (s : bytes) : bytes :=
  match scoreRegex_at s with
  | [] => match s with
          | [] => []
          | _ :: r => scoreRegex_FindString r
          end
  | m => m
  end.

(** The longest run of [\S] bytes at the start of [s]. *)
Fixpoint leadingNonSpace (s : bytes) : bytes :=
  match s with
  | c :: r => if isRegexSpace c then [] else c :: leadingNonSpace r
  | [] => []
  end.

(** [userRegex.FindAllString(line, -1)] for [@\S+]: the successive
    non-overlapping matches from left to right.  A match starts at an [@]
    that is followed by at least one [\S] byte and runs to the end of that
    run of [\S] bytes; the search resumes behind the match
    ([userRegex_resume] skips the rest of the run). *)
Fixpoint userRegex_FindAllString (s : bytes) : list bytes :=
  match s with
  | [] => []
  | c :: r =>
      if Ascii.eqb c "@" then
        match leadingNonSpace r with
        | [] => userRegex_FindAllString r
        | run => (c :: run) :: userRegex_resume r
        end
      else userRegex_FindAllString r
  end
with userRegex_resume (s : bytes) : list bytes :=
  match s with
  | [] => []
  | c :: r =>
      if isRegexSpace c then userRegex_FindAllString r
      else userRegex_resume r
  end.

(** ** [strconv.Atoi] *)

Definition maxInt : Z := 2 ^ 63 - 1.
Definition minInt : Z := - 2 ^ 63.

Definition digitVal (c : ascii) : Z := Z.of_N (code c) - 48.

(** The number a string of digits denotes. *)
Definition decimal (ds : bytes) : Z :=
  foldl (fun n c => 10 * n + digitVal c) 0 ds.

(** [strconv.Atoi(s)] on a 64-bit platform: the value and whether the error
    is non-nil.  An optional sign, then digits; a syntax error gives 0, a
    value out of range gives the nearest bound of [int]. *)
Definition Atoi (s : bytes) : Z * bool :=
  let '(neg, ds) :=
    match s with
    | c :: r => if Ascii.eqb c "-" then (true, r)
                else if Ascii.eqb c "+" then (false, r)
                else (false, s)
    | [] => (false, s)
    end in
  if bool_decide (ds = []) || negb (forallb isDigit ds) then (0, true)
  else
    let v := decimal ds in
    if neg then (if maxInt + 1 <? v then (minInt, true) else (- v, false))
    else (if maxInt <? v then (maxInt, true) else (v, false)).

(** ** [cleanUsername] *)

(** [unicode.IsSpace] on the bytes of a string: the ASCII white space, and the
    UTF-8 encodings of the other code points with the White_Space property
    (U+0085, U+00A0; U+1680, U+2000..U+200A, U+2028, U+2029, U+202F, U+205F,
    U+3000). *)
Definition isSpace1 (a : ascii) : bool := byte_in [9; 10; 11; 12; 13; 32]%N a.

Definition isSpace2 (a b : ascii) : bool :=
  (code a =? 194)%N && byte_in [133; 160]%N b.

Definition isSpace3 (a b c : ascii) : bool :=
  ((code a =? 225) && (code b =? 154) && (code c =? 128))%N
  || ((code a =? 226) && (code b =? 128)
      && (((128 <=? code c) && (code c <=? 138)) || byte_in [168; 169; 175] c))%N
  || ((code a =? 226) && (code b =? 129) && (code c =? 159))%N
  || ((code a =? 227) && (code b =? 128) && (code c =? 128))%N.

(** [strings.TrimLeftFunc(s, unicode.IsSpace)]: drop white-space runes from
    the front. *)
Fixpoint TrimLeftSpace (s : bytes) : bytes :=
  match s with
  | [] => []
  | a :: r1 =>
      if isSpace1 a then TrimLeftSpace r1
      else match r1 with
           | [] => s
           | b :: r2 =>
               if isSpace2 a b then TrimLeftSpace r2
               else match r2 with
                    | [] => s
                    | c :: r3 => if isSpace3 a b c then TrimLeftSpace r3 else s
                    end
           end
  end.

(** [strings.TrimRightFunc(s, unicode.IsSpace)], on the reversed string: the
    last rune is decoded from the last one, two or three bytes. *)
Fixpoint TrimRightSpace_rev (s : bytes) : bytes :=
  match s with
  | [] => []
  | a :: r1 =>
      if isSpace1 a then TrimRightSpace_rev r1
      else match r1 with
           | [] => s
           | b :: r2 =>
               if isSpace2 b a then TrimRightSpace_rev r2
               else match r2 with
                    | [] => s
                    | c :: r3 =>
                        if isSpace3 c b a then TrimRightSpace_rev r3 else s
                    end
           end
  end.

(** [strings.TrimSpace]. *)
Definition TrimSpace (s : bytes) : bytes :=
  rev (TrimRightSpace_rev (rev (TrimLeftSpace s))).

Fixpoint TrimLeft_set (cut : ascii → bool) (s : bytes) : bytes :=
  match s with
  | c :: r => if cut c then TrimLeft_set cut r else s
  | [] => []
  end.

(** [strings.Trim(s, cutset)] for an ASCII cutset: bytes of the cutset are
    dropped from both ends. *)
Definition Trim (s cutset : bytes) : bytes :=
  let cut c := existsb (Ascii.eqb c) cutset in
  TrimLeft_set cut (rev (TrimLeft_set cut (rev s))).

Definition cleanUsername (username : bytes) : bytes :=
  let username := TrimSpace username in
  let username := Trim username (B "@<>") in
  username.

(** ** The text extraction of [processWordleResultsMessage] *)

(** The score of a line, from its score match. *)
Definition scoreOf (scoreMatch : bytes) : Z :=
  if HasPrefix scoreMatch (B "X") then 7
  else fst (Atoi (hd [] (Split scoreMatch "/"))).

(** The body of the loop over the lines. *)
Definition processLine (dailyUsers : gmap string Z) (line : bytes)
  : gmap string Z :=
  let scoreMatch := scoreRegex_FindString line in
  if bool_decide (scoreMatch ≠ []) then
    let score := scoreOf scoreMatch in
    let usernames := userRegex_FindAllString line in
    foldl (fun m user => <[text (cleanUsername user) := score]> m)
          dailyUsers usernames
  else dailyUsers.

(** The map [dailyUsers] that [processWordleResultsMessage] builds from the
    message (the [extract] of the specification). *)
Definition extract (message : string) : gmap string Z :=
  foldl processLine ∅ (Split (B message) LF).

(** A message of two lines. *)
Definition twoLines (l1 l2 : string) : string := l1 +:+ String LF "" +:+ l2.

(** The normalised identifiers mentioned on a line. *)
Definition usersOf (line : bytes) : list string :=
  (fun user => text (cleanUsername user)) <$> userRegex_FindAllString line.

(** A line assigns its score to [u]: it has a score match and mentions [u]. *)
Definition assigns (line : bytes) (u : string) : Prop :=
  scoreRegex_FindString line ≠ [] ∧ u ∈ usersOf line.

(** The delimiters that [cleanUsername] strips. *)
Definition isDelimiter (c : ascii) : bool := existsb (Ascii.eqb c) (B "@<>").

(** ** The ledger *)

(** A row of the table [leaderboard], without its key: the columns [score]
    and [days_played]. *)
Record Row := mkRow { col_score : Z; col_days_played : Z }.

Global Instance Row_eq_dec : EqDecision Row.
Proof. solve_decision. Defined.

(** The two statements that [updateCumulativeScore] hands to [db.Exec]. *)
Inductive Stmt :=
| INSERT (username : string) (score days_played : Z)
| UPDATE (score days_played : Z) (username : string).

Definition stmt_user (q : Stmt) : string :=
  match q with
  | INSERT u _ _ => u
  | UPDATE _ _ u => u
  end.

(** What a statement does to the table.  [username] is [UNIQUE]: an [INSERT]
    of a username that has a row is rejected; an [UPDATE ... WHERE username = ?]
    changes the row of that username if there is one. *)
Definition runStmt (q : Stmt) (t : gmap string Row) : gmap string Row :=
  match q with
  | INSERT u s d =>
      match t !! u with
      | None => <[u := mkRow s d]> t
      | Some _ => t
      end
  | UPDATE s d u =>
      match t !! u with
      | Some _ => <[u := mkRow s d]> t
      | None => t
      end
  end.

(** The database: the table, and the statements handed to [db.Exec] so far
    (oldest first), which records the writes. *)
Record DB := mkDB { table : gmap string Row; issued : list Stmt }.

(** Which calls to the database driver fail.  Within one run every user is
    fetched and written at most once, so the failures are indexed by the
    user the call is about. *)
Record Faults := mkFaults {
  users_query_fails : bool;
    (* [db.Query("SELECT username FROM leaderboard")] returns an error *)
  users_scan_fails : string → bool;
    (* [rows.Scan(&username)] fails on the row of this user *)
  row_query_fails : string → bool;
    (* [db.QueryRow(...).Scan] returns an error other than [sql.ErrNoRows] *)
  exec_fails : string → bool;
    (* [db.Exec] returns an error *)
  board_query_fails : bool;
    (* the query of [sendLeaderboard] returns an error *)
  board_scan_fails : string → bool
    (* [rows.Scan] of [sendLeaderboard] fails on the row of this user *)
}.

Definition noFaults : Faults :=
  mkFaults false (fun _ => false) (fun _ => false) (fun _ => false)
           false (fun _ => false).

(** Go's [+] on [int]: the sum wraps around modulo [2^64]. *)
Definition wrap (z : Z) : Z := (z + 2 ^ 63) mod 2 ^ 64 - 2 ^ 63.
Definition int_add (a b : Z) : Z := wrap (a + b).

(** The outcome of [db.QueryRow("SELECT score, days_played ...").Scan]. *)
Inductive QueryRowResult :=
| ErrNoRows
| Scanned (currentScore daysPlayed : Z)
| ErrOther.

(** What the leaderboard shows in front of a player. *)
Inductive Marker := Gold | Silver | Bronze | Numbered (rank : Z).

Record Line := mkLine {
  line_marker : Marker;
  line_username : string;
  line_average : spec_float
}.

(** What is handed to [ChannelMessageSend]: the acknowledgement, or the
    leaderboard (its header and its lines; with no line the text is the
    header and the notice that there are no results yet). *)
Inductive Message :=
| Acknowledgement
| Leaderboard (lines : list Line).

(** ** The ordering of the leaderboard query *)

(** An integer as a double ([REAL] in SQLite, [float64] in Go), rounded to
    the nearest, ties to even. *)
Definition Z2SF (z : Z) : spec_float := binary_normalize 53 1024 z 0 false.

(** The first term of the [ORDER BY]: [score * 1.0 / days_played], computed
    on doubles. *)
Definition averageKey (r : Row) : spec_float :=
  SFdiv 53 1024 (SFmul 53 1024 (Z2SF (col_score r)) (Z2SF 1))
        (Z2SF (col_days_played r)).

(** The average that the loop of [sendLeaderboard] prints:
    [float64(totalScore) / float64(daysPlayed)]. *)
Definition averageScore (r : Row) : spec_float :=
  SFdiv 53 1024 (Z2SF (col_score r)) (Z2SF (col_days_played r)).

(** The order of SQLite on the values of a [REAL] expression.  SQLite has no
    NaN: such a result is [NULL], which comes before every number in an
    ascending order. *)
Definition realCompare (x y : spec_float) : comparison :=
  match x, y with
  | S754_nan, S754_nan => Eq
  | S754_nan, _ => Lt
  | _, S754_nan => Gt
  | _, _ => default Eq (SFcompare x y)
  end.

(** The next term of an [ORDER BY] decides when the terms before it are
    equal. *)
Definition thenBy (c1 c2 : comparison) : comparison :=
  match c1 with
  | Eq => c2
  | _ => c1
  end.

(** [ORDER BY (score * 1.0 / days_played) ASC, days_played DESC, username ASC];
    text is compared byte by byte. *)
Definition rowCompare (a b : string * Row) : comparison :=
  thenBy (realCompare (averageKey a.2) (averageKey b.2))
    (thenBy (Z.compare (col_days_played b.2) (col_days_played a.2))
            (String.compare a.1 b.1)).

Definition rowLe (a b : string * Row) : Prop := rowCompare a b ≠ Gt.

Global Instance rowLe_dec : RelDecision rowLe.
Proof. intros a b. unfold rowLe. apply _. Defined.

Definition markerOf (rank : Z) : Marker :=
  if rank =? 1 then Gold
  else if rank =? 2 then Silver
  else if rank =? 3 then Bronze
  else Numbered rank.

Section Bot.

(** The storage failures of the run. *)
Variable F : Faults.

(** The string literal that line 194 compares the user with: the one
    identifier that is never penalised.  Nothing below depends on which
    string it is. *)
Variable excludedUser : string.

(** Go's [range] over a map, and a [SELECT] without [ORDER BY], visit every
    entry once, in an order that is not specified. *)
Variable rangeOf : ∀ V : Type, gmap string V → list (string * V).

Definition QueryRow (username : string) (db : DB) : QueryRowResult :=
  if row_query_fails F username then ErrOther
  else match table db !! username with
       | Some r => Scanned (col_score r) (col_days_played r)
       | None => ErrNoRows
       end.

Definition Exec (q : Stmt) (db : DB) : DB :=
  {| table := if exec_fails F (stmt_user q) then table db
              else runStmt q (table db);
     issued := issued db ++ [q] |}.

Definition updateCumulativeScore
    (username : string) (score : Z) (incrementDays : bool) (db : DB) : DB :=
  match QueryRow username db with
  | ErrNoRows =>
      let newDaysPlayed := if incrementDays then 1 else 0 in
      Exec (INSERT username score newDaysPlayed) db
  | Scanned currentScore daysPlayed =>
      let newTotal := int_add currentScore score in
      let newDaysPlayed :=
        if incrementDays then int_add daysPlayed 1 else daysPlayed in
      Exec (UPDATE newTotal newDaysPlayed username) db
  | ErrOther => db
  end.

(** The set [dbUsers] after the loop over the rows of
    [SELECT username FROM leaderboard]; a row whose scan fails is skipped. *)
Definition scanUsers (db : DB) : gmap string bool :=
  foldl (fun dbUsers '(username, _) =>
           if users_scan_fails F username then dbUsers
           else <[username := true]> dbUsers)
        ∅ (rangeOf _ (table db)).

(** The first loop: the daily results. *)
Definition applyDaily (dailyUsers : gmap string Z)
    (st : DB * gmap string bool) : DB * gmap string bool :=
  foldl (fun '(db, dbUsers) '(user, score) =>
           (updateCumulativeScore user score true db,
            <[user := false]> dbUsers))
        st (rangeOf _ dailyUsers).

(** [dbUsers[user]]: a key that is not in the map reads as [false]. *)
Definition flag (dbUsers : gmap string bool) (user : string) : bool :=
  default false (dbUsers !! user).

(** The second loop: the penalties. *)
Definition applyPenalties (dbUsers : gmap string bool) (db : DB) : DB :=
  foldl (fun db '(user, _) =>
           if flag dbUsers user && negb (bool_decide (user = excludedUser))
           then updateCumulativeScore user 7 false db
           else db)
        db (rangeOf _ dbUsers).

Definition updateScoresBasedOnResults
    (dailyUsers : gmap string Z) (db : DB) : DB :=
  if users_query_fails F then db
  else
    let dbUsers := scanUsers db in
    let '(db, dbUsers) := applyDaily dailyUsers (db, dbUsers) in
    applyPenalties dbUsers db.

(** The rows of the query of [sendLeaderboard]. *)
Definition leaderboardRows (t : gmap string Row) : list (string * Row) :=
  merge_sort rowLe
    (filter (fun ur : string * Row => 0 < col_days_played ur.2) (rangeOf _ t)).

(** The loop of [sendLeaderboard] over the rows: a row whose scan fails is
    skipped and takes no rank. *)
Fixpoint boardLines (rank : Z) (rows : list (string * Row)) : list Line :=
  match rows with
  | [] => []
  | (username, r) :: rows' =>
      if board_scan_fails F username then boardLines rank rows'
      else mkLine (markerOf rank) username (averageScore r)
             :: boardLines (int_add rank 1) rows'
  end.

(** [sendLeaderboard]: the messages sent to the channel. *)
Definition sendLeaderboard (db : DB) : list Message :=
  if board_query_fails F then []
  else [Leaderboard (boardLines 1 (leaderboardRows (table db)))].

(** [processWordleResultsMessage]: the database after the run and the
    messages sent to the channel. *)
Definition processWordleResultsMessage (message : string) (db : DB)
  : DB * list Message :=
  let dailyUsers := extract message in
  let db := updateScoresBasedOnResults dailyUsers db in
  (db, Acknowledgement :: sendLeaderboard db).

(** *** The calls of one run, for the proofs *)

(** What a call [updateCumulativeScore(username, score, incrementDays)] does
    to the row of [username], and the statement it issues, given the row
    [o] that the table holds for that user. *)
Definition rowAfterCall (username : string) (score : Z) (incrementDays : bool)
    (o : option Row) : option Row :=
  if row_query_fails F username || exec_fails F username then o
  else match o with
       | None => Some (mkRow score (if incrementDays then 1 else 0))
       | Some r =>
           Some (mkRow (int_add (col_score r) score)
                       (if incrementDays then int_add (col_days_played r) 1
                        else col_days_played r))
       end.

Definition stmtsOfCall (username : string) (score : Z) (incrementDays : bool)
    (o : option Row) : list Stmt :=
  if row_query_fails F username then []
  else match o with
       | None => [INSERT username score (if incrementDays then 1 else 0)]
       | Some r =>
           [UPDATE (int_add (col_score r) score)
                   (if incrementDays then int_add (col_days_played r) 1
                    else col_days_played r)
                   username]
       end.

Definition Call : Type := string * (Z * bool).

Definition runCalls (cs : list Call) (db : DB) : DB :=
  foldl (fun db '(u, (s, b)) => updateCumulativeScore u s b db) db cs.

(** The users that the second loop penalises: known, their row scanned, not
    in the daily results, not the excluded one. *)
Definition penalised (dailyUsers : gmap string Z) (db : DB) (user : string)
  : bool :=
  bool_decide (is_Some (table db !! user))
  && negb (users_scan_fails F user)
  && bool_decide (dailyUsers !! user = None)
  && negb (bool_decide (user = excludedUser)).

(** The calls of the first loop, then those of the second, in the order in
    which the run makes them. *)
Definition dailyCalls (dailyUsers : gmap string Z) : list Call :=
  map (fun us : string * Z => (us.1, (us.2, true))) (rangeOf _ dailyUsers).

Definition penaltyCalls (dbUsers : gmap string bool) : list Call :=
  map (fun ub : string * bool => (ub.1, (7, false)))
      (filter (fun ub : string * bool =>
                 flag dbUsers ub.1 && negb (bool_decide (ub.1 = excludedUser)))
              (rangeOf _ dbUsers)).

Definition callsOf (dailyUsers : gmap string Z) (db : DB) : list Call :=
  dailyCalls dailyUsers
  ++ penaltyCalls (applyDaily dailyUsers (db, scanUsers db)).2.

End Bot.

(** One order that a [range] may take: that of [map_to_list]. *)
Definition mapOrder (V : Type) (m : gmap string V) : list (string * V) :=
  map_to_list m.

(** ** Notions used by the statements *)

(** The three shapes of the result of [scoreRegex.FindString]. *)
Inductive ScoreToken : bytes → Prop :=
| NoToken : ScoreToken []
| FailToken : ScoreToken (B "X/6")
| DigitToken ds :
    ds ≠ [] → forallb isDigit ds = true → ScoreToken (ds ++ B "/6").

(** [a] may stand before [b] on the leaderboard: its average is smaller, or
    the averages are equal and it has played more days, or these are equal
    too and its identifier is not the greater one. *)
Definition rankedBefore (a b : string * Row) : Prop :=
  match realCompare (averageKey a.2) (averageKey b.2) with
  | Lt => True
  | Gt => False
  | Eq =>
      col_days_played b.2 < col_days_played a.2
      ∨ (col_days_played a.2 = col_days_played b.2
         ∧ String.leb a.1 b.1 = true)
  end.

(** The average [CumulativeScore / DaysPlayed] of a row as a rational
    number, for a row with [days_played > 0]. *)
Definition exactAverage (r : Row) : QArith_base.Q :=
  QArith_base.Qmake (col_score r) (Z.to_pos (col_days_played r)).

(** [a] stands before [b] by the exact averages: the average of [a] is the
    smaller rational number, or the two are equal and [a] has played more
    days, or these are equal too and its identifier is not the greater
    one. *)
Definition exactBefore (a b : string * Row) : Prop :=
  match QArith_base.Qcompare (exactAverage a.2) (exactAverage b.2) with
  | Lt => True
  | Gt => False
  | Eq =>
      col_days_played b.2 < col_days_played a.2
      ∨ (col_days_played a.2 = col_days_played b.2
         ∧ String.leb a.1 b.1 = true)
  end.

(** A row of a player who has played, with score and days below 2^26: on
    such rows the order of the doubles [averageKey] is the order of the
    exact averages. *)
Definition boundedRow (r : Row) : Prop :=
  0 ≤ col_score r < 2 ^ 26 ∧ 0 < col_days_played r < 2 ^ 26.

(** The quotient [N / D] rounded to the nearest integer, ties to even: the
    mantissa that the division of two doubles keeps. *)
Definition rne (N D : Z) : Z :=
  N / D + (if (D <? 2 * (N mod D)) || ((2 * (N mod D) =? D) && Z.odd (N / D))
           then 1 else 0).

(** The double with the mantissa [M] in [[2^52, 2^53]] and the exponent [e];
    the mantissa [2^53] is carried into the exponent. *)
Definition normalFloat (s : bool) (M e : Z) : spec_float :=
  if M <? 2 ^ 53 then S754_finite s (Z.to_pos M) e
  else S754_finite s 4503599627370496 (e + 1).

(** A three-way comparison that is a total preorder. *)
Record CmpOrder {A} (c : A → A → comparison) : Prop := {
  cmp_antisym : ∀ x y, c y x = CompOpp (c x y);
  cmp_eq_l : ∀ x y z, c x y = Eq → c x z = c y z;
  cmp_lt_trans : ∀ x y z, c x y = Lt → c y z = Lt → c x z = Lt
}.

(** The place of a double in the order of [realCompare]: its class (NULL,
    minus infinity, negative, zero, positive, plus infinity), then the
    exponent and the mantissa, negated for the negative numbers. *)
Definition realKey (x : spec_float) : Z * (Z * Z) :=
  match x with
  | S754_nan => (0, (0, 0))
  | S754_infinity true => (1, (0, 0))
  | S754_finite true m e => (2, (- e, Zneg m))
  | S754_zero _ => (3, (0, 0))
  | S754_finite false m e => (4, (e, Zpos m))
  | S754_infinity false => (5, (0, 0))
  end.

Definition keyCompare (k k' : Z * (Z * Z)) : comparison :=
  thenBy (k.1 ?= k'.1) (thenBy (k.2.1 ?= k'.2.1) (k.2.2 ?= k'.2.2)).

(** ** The message handler *)

(** A byte of a plain name: ASCII, neither white space nor one of the
    delimiters that [cleanUsername] strips. *)
Definition isPlain (c : ascii) : bool :=
  (code c <? 128)%N && negb (isSpace1 c) && negb (isDelimiter c).

Definition isASCII (c : ascii) : bool := (code c <? 128)%N.

(** An ASCII letter in lower case; any other byte as it is. *)
Definition lowerByte (c : ascii) : ascii :=
  if (65 <=? code c)%N && (code c <=? 90)%N then ascii_of_N (code c + 32)
  else c.

(** [strings.Contains(s, substr)]. *)
Fixpoint Contains (s substr : bytes) : bool :=
  HasPrefix s substr
  || match s with
     | [] => false
     | _ :: r => Contains r substr
     end.

(** [discordgo.User] and [discordgo.MessageCreate], the fields that the
    handler reads. *)
Record User := mkUser {
  user_ID : string;
  user_Username : string;
  user_Discriminator : string
}.

Record MessageCreate := mkMessageCreate {
  msg_Author : User;
  msg_Content : string;
  msg_ChannelID : string
}.

(** Another order that a [range] may take. *)
Definition reverseOrder (V : Type) (m : gmap string V) : list (string * V) :=
  rev (map_to_list m).

Section Handler.

(** [strings.Map(unicode.ToLower, s)], which [strings.ToLower] falls back to
    for a string with a byte outside ASCII; the case tables of Unicode are
    not modelled. *)
Variable unicodeToLower : bytes → bytes.

(** [strings.ToLower]: a string of ASCII bytes is lowered byte by byte. *)
Definition ToLower (s : bytes) : bytes :=
  if forallb isASCII s then map lowerByte s else unicodeToLower s.

(** The storage failures of the leaderboard command and those of the
    processing of the results: within one call of the handler
    [sendLeaderboard] may run twice. *)
Variable Fcommand F : Faults.
Variable excludedUser : string.
Variable rangeOf : ∀ V : Type, gmap string V → list (string * V).

(** [s.State.User.ID]: the bot itself. *)
Variable selfID : string.

(** [onMessageCreate]: the database after the call, and the messages sent,
    each with the channel it goes to. *)
Definition onMessageCreate (m : MessageCreate) (db : DB)
  : DB * list (string * Message) :=
  if bool_decide (user_ID (msg_Author m) = selfID) then (db, [])
  else
    let content := B (msg_Content m) in
    let to_channel := map (fun reply => (msg_ChannelID m, reply)) in
    let command :=
      if HasPrefix (ToLower content) (B "!leaderboard")
      then to_channel (sendLeaderboard Fcommand rangeOf db)
      else [] in
    if bool_decide (user_Username (msg_Author m) = "Wordle")
       && bool_decide (user_Discriminator (msg_Author m) = "2092")
    then
      if Contains (ToLower content) (B "results") then
        let '(db', replies) :=
          processWordleResultsMessage F excludedUser rangeOf
            (msg_Content m) db in
        (db', command ++ to_channel replies)
      else (db, command)
    else (db, command).

End Handler.

(** Sample inputs of the instances: the writes of bob fail; the poster of
    the results and another author. *)
Definition bobWriteFails : Faults :=
  mkFaults false (fun _ => false) (fun _ => false)
           (fun u => bool_decide (u = "bob")) false (fun _ => false).

Definition wordle : User := mkUser "42" "Wordle" "2092".
Definition someone : User := mkUser "7" "alice" "0001".

(** * The text extractor *)

Section ExtractorFacts.

Lemma isDigit_code c : isDigit c = true ↔ (48 ≤ code c ≤ 57)%N.
Proof.
  unfold isDigit. rewrite andb_true_iff, !N.leb_le. tauto.
Qed.

Lemma digit_neq c d : isDigit c = true → isDigit d = false → Ascii.eqb c d = false.
Proof.
  intros Hc Hd. apply Ascii.eqb_neq. intros ->. congruence.
Qed.

Lemma digitVal_bounds c : isDigit c = true → 0 ≤ digitVal c ≤ 9.
Proof. intros Hc%isDigit_code. unfold digitVal. lia. Qed.

Lemma leadingDigits_digits s : forallb isDigit (leadingDigits s) = true.
Proof.
  induction s as [|c r IH]; [done|]. simpl.
  destruct (isDigit c) eqn:Hc; [|done]. simpl. by rewrite Hc.
Qed.

Lemma decimal_nonneg ds : forallb isDigit ds = true → 0 ≤ decimal ds.
Proof.
  unfold decimal. assert (H : ∀ n, 0 ≤ n → forallb isDigit ds = true →
    0 ≤ foldl (fun n c => 10 * n + digitVal c) n ds).
  { induction ds as [|c ds IH]; intros n Hn Hds; [done|].
    simpl in *. apply andb_true_iff in Hds as [Hc Hds].
    apply IH; [|done]. pose proof (digitVal_bounds c Hc). lia. }
  by apply H.
Qed.

Lemma scoreRegex_at_token s : ScoreToken (scoreRegex_at s).
Proof.
  unfold scoreRegex_at.
  destruct (negb (bool_decide (leadingDigits s = [])) && _) eqn:Hd.
  - apply andb_true_iff in Hd as [Hne _].
    apply negb_true_iff, bool_decide_eq_false in Hne.
    constructor; [done|apply leadingDigits_digits].
  - destruct (HasPrefix s (B "X/6")); constructor.
Qed.

Lemma scoreRegex_FindString_token s : ScoreToken (scoreRegex_FindString s).
Proof.
  induction s as [|c r IH]; simpl.
  - apply NoToken.
  - pose proof (scoreRegex_at_token (c :: r)) as H.
    destruct (scoreRegex_at (c :: r)); [exact IH|exact H].
Qed.

Lemma Split_digits ds rest :
  forallb isDigit ds = true →
  hd [] (Split (ds ++ "/"%char :: rest) "/") = ds.
Proof.
  induction ds as [|c ds IH]; intros Hds; [done|].
  simpl in *. apply andb_true_iff in Hds as [Hc Hds].
  rewrite (digit_neq c "/") by done.
  specialize (IH Hds). destruct (Split _ _); simpl in *; by subst.
Qed.

Lemma Atoi_digits ds :
  ds ≠ [] → forallb isDigit ds = true →
  (Atoi ds).1 = Z.min (decimal ds) maxInt.
Proof.
  intros Hne Hds. unfold Atoi.
  destruct ds as [|c r]; [done|].
  pose proof Hds as Hds'. simpl in Hds'. apply andb_true_iff in Hds' as [Hc _].
  rewrite (digit_neq c "-"), (digit_neq c "+") by done.
  rewrite bool_decide_eq_false_2 by done. rewrite Hds. simpl.
  destruct (maxInt <? decimal (c :: r)) eqn:Hlt; simpl.
  - apply Z.ltb_lt in Hlt. lia.
  - apply Z.ltb_ge in Hlt. lia.
Qed.

Lemma scoreOf_fail : scoreOf (B "X/6") = 7.
Proof. reflexivity. Qed.

Lemma scoreOf_digits ds :
  ds ≠ [] → forallb isDigit ds = true →
  scoreOf (ds ++ B "/6") = Z.min (decimal ds) maxInt.
Proof.
  intros Hne Hds. unfold scoreOf.
  assert (HasPrefix (ds ++ B "/6") (B "X") = false) as ->.
  { destruct ds as [|c r]; [done|]. simpl in *.
    apply andb_true_iff in Hds as [Hc _].
    by rewrite (digit_neq c "X"). }
  change (B "/6") with ("/"%char :: B "6").
  rewrite Split_digits by done. by apply Atoi_digits.
Qed.

Lemma scoreOf_bounds m : ScoreToken m → m ≠ [] → 0 ≤ scoreOf m ≤ maxInt.
Proof.
  intros [| |ds Hne Hds] Hm; [done|by vm_compute|].
  rewrite scoreOf_digits by done.
  pose proof (decimal_nonneg ds Hds). unfold maxInt in *. lia.
Qed.

Lemma insert_all_lookup (sc : Z) (us : list string) : ∀ (d : gmap string Z) u,
  foldl (fun m user => <[user := sc]> m) d us !! u
  = if bool_decide (u ∈ us) then Some sc else d !! u.
Proof.
  induction us as [|v us IH]; intros d u; [done|].
  simpl. rewrite IH. destruct (decide (u = v)) as [->|Hne].
  - rewrite lookup_insert_eq.
    rewrite (bool_decide_eq_true_2 (v ∈ v :: us)) by (apply elem_of_cons; auto).
    by destruct (bool_decide _).
  - rewrite lookup_insert_ne by done.
    apply (f_equal (fun b : bool => if b then _ else _)).
    apply bool_decide_ext. rewrite elem_of_cons. tauto.
Qed.

Lemma processLine_lookup d line u :
  processLine d line !! u
  = if bool_decide (assigns line u)
    then Some (scoreOf (scoreRegex_FindString line))
    else d !! u.
Proof.
  unfold processLine, assigns, usersOf.
  destruct (bool_decide (scoreRegex_FindString line ≠ [])) eqn:Hm.
  - apply bool_decide_eq_true in Hm.
    rewrite <- (foldl_fmap (fun m user => <[user := _]> m)).
    rewrite insert_all_lookup.
    apply (f_equal (fun b : bool => if b then _ else _)).
    apply bool_decide_ext. tauto.
  - apply bool_decide_eq_false in Hm.
    rewrite bool_decide_eq_false_2; [done|]. tauto.
Qed.

Lemma processLines_last lines : ∀ d before line after u,
  lines = before ++ line :: after →
  assigns line u →
  (∀ l, l ∈ after → ¬ assigns l u) →
  foldl processLine d lines !! u
  = Some (scoreOf (scoreRegex_FindString line)).
Proof.
  intros d before line after u -> Hline Hafter.
  rewrite foldl_app. simpl.
  generalize (foldl processLine d before). intros d0.
  assert (Hkeep : ∀ ls d1, (∀ l, l ∈ ls → ¬ assigns l u) →
            foldl processLine d1 ls !! u = d1 !! u).
  { induction ls as [|l ls IH]; intros d1 Hls; [done|].
    simpl. rewrite IH.
    - rewrite processLine_lookup. rewrite bool_decide_eq_false_2; [done|].
      apply Hls, elem_of_cons. auto.
    - intros l' Hl'. apply Hls, elem_of_cons. auto. }
  rewrite Hkeep by done. rewrite processLine_lookup.
  by rewrite bool_decide_eq_true_2.
Qed.

Lemma processLines_origin lines : ∀ d u s,
  foldl processLine d lines !! u = Some s →
  d !! u = Some s
  ∨ ∃ line, line ∈ lines ∧ assigns line u
            ∧ s = scoreOf (scoreRegex_FindString line).
Proof.
  induction lines as [|l ls IH]; intros d u s Hs; [by left|].
  simpl in Hs. apply IH in Hs as [Hs|(line & Hin & Ha & ->)].
  - rewrite processLine_lookup in Hs. case_bool_decide as Ha.
    + right. exists l. split; [apply elem_of_cons; auto|].
      split; [done|congruence].
    + by left.
  - right. exists line. split; [apply elem_of_cons; auto|done].
Qed.

Lemma TrimLeft_set_all cut s : forallb cut s = true → TrimLeft_set cut s = [].
Proof.
  induction s as [|c r IH]; [done|]. simpl.
  intros [Hc Hr]%andb_true_iff. rewrite Hc. by apply IH.
Qed.

Lemma delimiter_code c : isDelimiter c = true → (code c < 128)%N ∧ isSpace1 c = false.
Proof.
  unfold isDelimiter. simpl. rewrite !orb_true_iff, !Ascii.eqb_eq.
  intros [->|[->|[->|?]]]; [..|done]; split; reflexivity.
Qed.

Lemma TrimLeftSpace_delimiter c r :
  isDelimiter c = true → TrimLeftSpace (c :: r) = c :: r.
Proof.
  intros [Hc Hs]%delimiter_code. simpl. rewrite Hs.
  destruct r as [|b r]; [done|].
  assert (isSpace2 c b = false) as ->.
  { unfold isSpace2. apply andb_false_iff. left. apply N.eqb_neq. lia. }
  destruct r as [|a r]; [done|].
  assert (isSpace3 c b a = false) as ->; [|done].
  unfold isSpace3.
  assert (Hn : ∀ n, (128 ≤ n)%N → (code c =? n)%N = false).
  { intros n Hn. apply N.eqb_neq. lia. }
  by rewrite !Hn by lia.
Qed.

Lemma byte_in_ge l c :
  Forall (fun n => (128 ≤ n)%N) l → (code c < 128)%N → byte_in l c = false.
Proof.
  intros Hl Hc. unfold byte_in. induction Hl as [|n l Hn Hl IH]; [done|].
  simpl. rewrite IH, orb_false_r. apply N.eqb_neq. lia.
Qed.

Lemma TrimRightSpace_rev_delimiter c r :
  isDelimiter c = true → TrimRightSpace_rev (c :: r) = c :: r.
Proof.
  intros [Hc Hs]%delimiter_code. simpl. rewrite Hs.
  destruct r as [|b r]; [done|].
  assert (isSpace2 b c = false) as ->.
  { unfold isSpace2. apply andb_false_iff. right.
    apply byte_in_ge; [|done]. repeat constructor; lia. }
  destruct r as [|a r]; [done|].
  assert (isSpace3 a b c = false) as ->; [|done].
  unfold isSpace3.
  assert (Hn : ∀ n, (128 ≤ n)%N → (code c =? n)%N = false).
  { intros n Hn. apply N.eqb_neq. lia. }
  rewrite !Hn by lia.
  assert ((128 <=? code c)%N = false) as -> by (apply N.leb_gt; lia).
  rewrite byte_in_ge; [|repeat constructor; lia|done].
  by rewrite !andb_false_r.
Qed.

(** A mention made of delimiters only normalises to the empty string. *)
Lemma cleanUsername_delimiters tok :
  forallb isDelimiter tok = true → cleanUsername tok = [].
Proof.
  intros Htok. unfold cleanUsername, TrimSpace, Trim.
  assert (Hspace : rev (TrimRightSpace_rev (rev (TrimLeftSpace tok))) = tok).
  { destruct tok as [|c r]; [done|].
    pose proof Htok as Htok'. simpl in Htok'.
    apply andb_true_iff in Htok' as [Hc _].
    rewrite TrimLeftSpace_delimiter by done.
    destruct (rev (c :: r)) as [|c' r'] eqn:Hrev.
    { apply (f_equal length) in Hrev. by rewrite length_rev in Hrev. }
    assert (isDelimiter c' = true).
    { apply forallb_forall with (x := c') in Htok; [done|].
      apply in_rev. rewrite Hrev. by left. }
    rewrite TrimRightSpace_rev_delimiter by done.
    by rewrite <- Hrev, rev_involutive. }
  rewrite Hspace.
  rewrite (TrimLeft_set_all _ (rev tok)); [done|].
  apply forallb_forall. intros x Hx%in_rev.
  by apply (proj1 (forallb_forall _ _) Htok).
Qed.

Lemma leadingNonSpace_prefix s :
  s = leadingNonSpace s ++ drop (length (leadingNonSpace s)) s.
Proof.
  induction s as [|c r IH]; [done|]. simpl.
  destruct (isRegexSpace c); [done|]. simpl. by rewrite <- IH.
Qed.

(** Behind a match the search goes on after the run of [\S] bytes. *)
Lemma userRegex_resume_drop s :
  userRegex_resume s
  = userRegex_FindAllString (drop (length (leadingNonSpace s)) s).
Proof.
  induction s as [|c r IH]; [done|]. simpl.
  destruct (isRegexSpace c) eqn:Hc; [|done]. simpl.
  destruct (Ascii.eqb c "@") eqn:Hat; [|done].
  apply Ascii.eqb_eq in Hat. subst c. done.
Qed.

Lemma userRegex_FindAllString_at r :
  userRegex_FindAllString ("@"%char :: r)
  = match leadingNonSpace r with
    | [] => userRegex_FindAllString r
    | run => ("@"%char :: run)
             :: userRegex_FindAllString (drop (length run) r)
    end.
Proof.
  simpl. rewrite userRegex_resume_drop. by destruct (leadingNonSpace r).
Qed.

(** [scoreRegex_FindString] returns the match at the leftmost position that
    has one. *)
Lemma scoreRegex_FindString_leftmost s m :
  scoreRegex_FindString s = m → m ≠ [] →
  ∃ k, scoreRegex_at (drop k s) = m
       ∧ ∀ j, (j < k)%nat → scoreRegex_at (drop j s) = [].
Proof.
  revert m. induction s as [|c r IH]; intros m Hm Hne.
  { simpl in Hm. congruence. }
  simpl in Hm. destruct (scoreRegex_at (c :: r)) as [|a l] eqn:Hat.
  - destruct (IH m Hm Hne) as (k & Hk & Hlt). exists (S k). split; [done|].
    intros [|j] Hj; [done|]. simpl. apply Hlt. lia.
  - exists 0%nat. split; [by rewrite <- Hm|]. intros j Hj. lia.
Qed.

Lemma scoreRegex_FindString_none s :
  scoreRegex_FindString s = [] → ∀ k, scoreRegex_at (drop k s) = [].
Proof.
  induction s as [|c r IH]; intros Hm k.
  { by rewrite drop_nil. }
  simpl in Hm. destruct (scoreRegex_at (c :: r)) as [|a l] eqn:Hat; [|done].
  destruct k as [|k]; [done|]. simpl. by apply IH.
Qed.

(** *** The model on sample inputs *)

Example scoreRegex_leftmost_first :
  scoreRegex_FindString (B "day 12a3/6 X/6") = B "3/6"
  ∧ scoreRegex_FindString (B "X/6 then 2/6") = B "X/6"
  ∧ scoreRegex_FindString (B "12/6") = B "12/6"
  ∧ scoreRegex_FindString (B "x/6 1/7") = [].
Proof. repeat split; reflexivity. Qed.

Example userRegex_matches :
  userRegex_FindAllString (B "x @@ @ @a@b <@123> @c @")
  = [B "@@"; B "@a@b"; B "@123>"; B "@c"].
Proof. reflexivity. Qed.

Example cleanUsername_samples :
  cleanUsername (B "@alice") = B "alice"
  ∧ cleanUsername (B "@123>") = B "123"
  ∧ cleanUsername (B "@a@b") = B "a@b"
  ∧ cleanUsername (B "@al" ++ [ascii_of_N 194; ascii_of_N 160]) = B "al"
  ∧ cleanUsername (B "@al" ++ [ascii_of_N 160]) = B "al" ++ [ascii_of_N 160].
Proof. repeat split; reflexivity. Qed.

Example Atoi_samples :
  Atoi (B "3") = (3, false)
  ∧ Atoi (B "007") = (7, false)
  ∧ Atoi (B "9223372036854775807") = (maxInt, false)
  ∧ Atoi (B "9223372036854775808") = (maxInt, true)
  ∧ Atoi (B "-9223372036854775809") = (minInt, true)
  ∧ Atoi (B "") = (0, true)
  ∧ Atoi (B "+") = (0, true)
  ∧ Atoi (B "1x") = (0, true).
Proof. repeat split; reflexivity. Qed.

Example extract_samples :
  extract "2/6" = ∅
  ∧ extract "no score @alice" = ∅
  ∧ extract "X/6 3/6 @alice" = {[ "alice" := 7 ]}
  ∧ extract "5/6 @alice @bob" = {[ "alice" := 5; "bob" := 5 ]}
  ∧ extract "0/6 @alice" = {[ "alice" := 0 ]}.
Proof. repeat split; by vm_compute. Qed.

(** C3, counterexample: the message "9/6 @alice" gives alice the score 9,
    which is neither in 1..6 nor the sentinel 7. *)
Lemma C3_score_out_of_range :
  extract "9/6 @alice" !! "alice" = Some 9
  ∧ ¬ (1 ≤ 9 ≤ 6 ∨ 9 = 7).
Proof. split; [by vm_compute|lia]. Qed.

(** C3, amended: every score of the daily result comes from a line that
    mentions the player, and is either 7, the score match of that line being
    "X/6", or the number that the digits before "/6" of that score match
    denote, capped at the largest [int].  It is never negative; nothing
    keeps it within 1..6. *)
Theorem C3_extract_scores message u s :
  extract message !! u = Some s →
  (∃ line, line ∈ Split (B message) LF ∧ u ∈ usersOf line
     ∧ ((scoreRegex_FindString line = B "X/6" ∧ s = 7)
        ∨ ∃ ds, ds ≠ [] ∧ forallb isDigit ds = true
                ∧ scoreRegex_FindString line = ds ++ B "/6"
                ∧ s = Z.min (decimal ds) maxInt))
  ∧ 0 ≤ s ≤ maxInt.
Proof.
  unfold extract. intros Hs.
  apply processLines_origin in Hs as [Hs|(line & Hin & [Hm Hu] & ->)].
  { by rewrite lookup_empty in Hs. }
  pose proof (scoreRegex_FindString_token line) as Htok.
  split; [|by apply scoreOf_bounds].
  exists line. split; [done|]. split; [done|].
  destruct Htok as [| |ds Hne Hds]; [done|left; by vm_compute|].
  right. exists ds. repeat split; try done. by apply scoreOf_digits.
Qed.

Lemma C3_extract_scores_witness :
  extract "9/6 @alice" !! "alice" = Some 9 ∧ 0 ≤ 9 ≤ maxInt.
Proof.
  assert (H : extract "9/6 @alice" !! "alice" = Some 9) by (vm_compute; reflexivity).
  split; [exact H|].
  exact (proj2 (C3_extract_scores "9/6 @alice" "alice" 9 H)).
Defined.

(** C6: when a line with a score match mentions a player and no later line
    with a score match mentions that player, the daily result gives the
    player the score of that line, whatever the earlier lines said; the
    message "1/6 @alice", "3/6 @alice" gives exactly alice the score 3. *)
Theorem C6_last_line_wins :
  (∀ message before line after u,
     Split (B message) LF = before ++ line :: after →
     scoreRegex_FindString line ≠ [] → u ∈ usersOf line →
     (∀ l, l ∈ after → scoreRegex_FindString l ≠ [] → u ∉ usersOf l) →
     extract message !! u = Some (scoreOf (scoreRegex_FindString line)))
  ∧ extract (twoLines "1/6 @alice" "3/6 @alice") = {[ "alice" := 3 ]}.
Proof.
  split; [|by vm_compute].
  intros message before line after u Hsplit Hm Hu Hafter.
  unfold extract. apply (processLines_last _ _ before line after); try done.
  intros l Hl [Hlm Hlu]. by apply (Hafter l).
Qed.

Lemma C6_last_line_wins_witness :
  extract (twoLines "1/6 @alice" "3/6 @alice") !! "alice"
  = Some (scoreOf (scoreRegex_FindString (B "3/6 @alice"))).
Proof.
  apply (proj1 C6_last_line_wins (twoLines "1/6 @alice" "3/6 @alice")
           [B "1/6 @alice"] (B "3/6 @alice") [] "alice").
  - vm_compute. reflexivity.
  - vm_compute. discriminate.
  - vm_compute. left.
  - intros l Hl. inversion Hl.
Defined.

(** C9: the message "1/6 @alice", "X/6 @bob" gives exactly alice 1 and
    bob 7; a line whose score match is the digits of N followed by "/6"
    (N an [int]) gives N to every normalised mention of the line, and a line
    whose score match is "X/6" gives them 7. *)
Theorem C9_basic_extraction :
  extract (twoLines "1/6 @alice" "X/6 @bob") = {[ "alice" := 1; "bob" := 7 ]}
  ∧ ∀ dailyUsers line u,
      u ∈ usersOf line →
      (∀ ds, ds ≠ [] → forallb isDigit ds = true → decimal ds ≤ maxInt →
             scoreRegex_FindString line = ds ++ B "/6" →
             processLine dailyUsers line !! u = Some (decimal ds))
      ∧ (scoreRegex_FindString line = B "X/6" →
         processLine dailyUsers line !! u = Some 7).
Proof.
  split; [by vm_compute|]. intros d line u Hu. split.
  - intros ds Hne Hds Hfit Hm. rewrite processLine_lookup.
    rewrite bool_decide_eq_true_2.
    + rewrite Hm, scoreOf_digits by done. f_equal. lia.
    + split; [|done]. rewrite Hm. by destruct ds.
  - intros Hm. rewrite processLine_lookup.
    rewrite bool_decide_eq_true_2; [by rewrite Hm|].
    split; [|done]. by rewrite Hm.
Qed.

Lemma C9_basic_extraction_witness :
  processLine ∅ (B "4/6 @alice @bob") !! "bob" = Some 4
  ∧ processLine ∅ (B "X/6 @alice @bob") !! "bob" = Some 7.
Proof.
  split.
  - apply (proj1 (proj2 C9_basic_extraction ∅ (B "4/6 @alice @bob") "bob"
                    ltac:(vm_compute; right; left)) (B "4")).
    + discriminate.
    + reflexivity.
    + vm_compute. discriminate.
    + vm_compute. reflexivity.
  - apply (proj2 (proj2 C9_basic_extraction ∅ (B "X/6 @alice @bob") "bob"
                    ltac:(vm_compute; right; left))).
    vm_compute. reflexivity.
Defined.

End ExtractorFacts.

(** * The order of the leaderboard *)

Section Orders.

Context {A : Type}.

Lemma cmp_lt_eq (c : A → A → comparison) x y z :
  CmpOrder c → c x y = Lt → c y z = Eq → c x z = Lt.
Proof.
  intros Hc Hxy Hyz.
  assert (Hzy : c z y = Eq) by (by rewrite (cmp_antisym c Hc), Hyz).
  pose proof (cmp_eq_l c Hc z y x Hzy) as Hzx.
  rewrite (cmp_antisym c Hc x y), Hxy in Hzx. simpl in Hzx.
  by rewrite (cmp_antisym c Hc z x), Hzx.
Qed.

Lemma cmp_le_trans (c : A → A → comparison) x y z :
  CmpOrder c → c x y ≠ Gt → c y z ≠ Gt → c x z ≠ Gt.
Proof.
  intros Hc Hxy Hyz. destruct (c x y) eqn:Exy; [| |done].
  - by rewrite (cmp_eq_l c Hc x y z Exy).
  - destruct (c y z) eqn:Eyz; [| |done].
    + by rewrite (cmp_lt_eq c x y z).
    + by rewrite (cmp_lt_trans c Hc x y z).
Qed.

Lemma cmp_le_total (c : A → A → comparison) x y :
  CmpOrder c → c x y ≠ Gt ∨ c y x ≠ Gt.
Proof.
  intros Hc. rewrite (cmp_antisym c Hc x y). destruct (c x y); auto.
Qed.

Lemma thenBy_CmpOrder (c1 c2 : A → A → comparison) :
  CmpOrder c1 → CmpOrder c2 →
  CmpOrder (fun x y => thenBy (c1 x y) (c2 x y)).
Proof.
  intros H1 H2. split.
  - intros x y. rewrite (cmp_antisym c1 H1 x y), (cmp_antisym c2 H2 x y).
    by destruct (c1 x y).
  - intros x y z Hxy. destruct (c1 x y) eqn:E1; try done. simpl in Hxy.
    by rewrite (cmp_eq_l c1 H1 x y z E1), (cmp_eq_l c2 H2 x y z Hxy).
  - intros x y z Hxy Hyz.
    destruct (c1 x y) eqn:E1; try done; simpl in Hxy.
    + rewrite (cmp_eq_l c1 H1 x y z E1).
      destruct (c1 y z) eqn:E2; try done; simpl in *.
      by apply (cmp_lt_trans c2 H2 x y z).
    + destruct (c1 y z) eqn:E2; try done; simpl in *.
      * by rewrite (cmp_lt_eq c1 x y z).
      * by rewrite (cmp_lt_trans c1 H1 x y z).
Qed.

Lemma key_CmpOrder {K} (c : K → K → comparison) (f : A → K) :
  CmpOrder c → CmpOrder (fun x y => c (f x) (f y)).
Proof. intros [H1 H2 H3]. split; eauto. Qed.

End Orders.

Lemma Z_compare_desc_CmpOrder : CmpOrder (fun x y : Z => Z.compare y x).
Proof.
  split.
  - intros x y. apply Z.compare_antisym.
  - intros x y z Hxy. apply Z.compare_eq in Hxy. by subst.
  - intros x y z Hxy Hyz. rewrite Z.compare_lt_iff in *. lia.
Qed.

Lemma String_compare_CmpOrder : CmpOrder String.compare.
Proof.
  split.
  - intros x y. apply String.compare_antisym.
  - intros x y z Hxy. apply String.compare_eq_iff in Hxy. by subst.
  - intros x. induction x as [|a x IH]; intros [|b y] [|c z] Hxy Hyz;
      simpl in *; try done.
    destruct (Ascii.compare a b) eqn:Hab; try done.
    + apply Ascii.compare_eq_iff in Hab as ->.
      destruct (Ascii.compare b c); try done. by apply (IH y z).
    + destruct (Ascii.compare b c) eqn:Hbc; try done.
      * apply Ascii.compare_eq_iff in Hbc as <-. by rewrite Hab.
      * assert (Ascii.compare a c = Lt) as ->; [|done].
        unfold Ascii.compare in *. rewrite N.compare_lt_iff in *. lia.
Qed.

Lemma Z_compare_CmpOrder : CmpOrder Z.compare.
Proof.
  split.
  - intros x y. apply Z.compare_antisym.
  - intros x y z Hxy. apply Z.compare_eq in Hxy. by subst.
  - intros x y z Hxy Hyz. rewrite Z.compare_lt_iff in *. lia.
Qed.

Lemma CmpOrder_ext {A} (c c' : A → A → comparison) :
  (∀ x y, c x y = c' x y) → CmpOrder c' → CmpOrder c.
Proof.
  intros Hext [H1 H2 H3]. split; intros *; rewrite !Hext; eauto.
Qed.

Lemma realCompare_key x y :
  realCompare x y = keyCompare (realKey x) (realKey y).
Proof.
  unfold keyCompare.
  destruct x as [sx|sx| |sx mx ex], y as [sy|sy| |sy my ey];
    try destruct sx; try destruct sy; try reflexivity; cbn.
  - rewrite Z.compare_opp, (Z.compare_antisym ex ey).
    by destruct (ex ?= ey).
  - by destruct (ex ?= ey).
Qed.

Lemma realCompare_CmpOrder : CmpOrder realCompare.
Proof.
  apply (CmpOrder_ext _ _ realCompare_key).
  apply (key_CmpOrder keyCompare realKey). unfold keyCompare.
  apply (thenBy_CmpOrder (fun k k' : Z * (Z * Z) => k.1 ?= k'.1)
           (fun k k' => thenBy (k.2.1 ?= k'.2.1) (k.2.2 ?= k'.2.2))).
  - apply (key_CmpOrder Z.compare fst), Z_compare_CmpOrder.
  - apply (thenBy_CmpOrder (fun k k' : Z * (Z * Z) => k.2.1 ?= k'.2.1)
             (fun k k' => k.2.2 ?= k'.2.2)).
    + apply (key_CmpOrder Z.compare (fun k : Z * (Z * Z) => k.2.1)),
        Z_compare_CmpOrder.
    + apply (key_CmpOrder Z.compare (fun k : Z * (Z * Z) => k.2.2)),
        Z_compare_CmpOrder.
Qed.

Lemma rowCompare_CmpOrder : CmpOrder rowCompare.
Proof.
  unfold rowCompare.
  apply (thenBy_CmpOrder
           (fun a b : string * Row =>
              realCompare (averageKey a.2) (averageKey b.2))
           (fun a b =>
              thenBy (col_days_played b.2 ?= col_days_played a.2)
                     (String.compare a.1 b.1))).
  - apply (key_CmpOrder realCompare (fun a : string * Row => averageKey a.2)),
      realCompare_CmpOrder.
  - apply (thenBy_CmpOrder
             (fun a b : string * Row =>
                col_days_played b.2 ?= col_days_played a.2)
             (fun a b => String.compare a.1 b.1)).
    + apply (key_CmpOrder (fun x y : Z => y ?= x)
               (fun a : string * Row => col_days_played a.2)),
        Z_compare_desc_CmpOrder.
    + apply (key_CmpOrder String.compare fst), String_compare_CmpOrder.
Qed.

Global Instance rowLe_total : Total rowLe.
Proof. intros a b. apply cmp_le_total, rowCompare_CmpOrder. Qed.

Global Instance rowLe_trans : Transitive rowLe.
Proof. intros a b c. apply cmp_le_trans, rowCompare_CmpOrder. Qed.

Lemma rowLe_rankedBefore a b : rowLe a b → rankedBefore a b.
Proof.
  unfold rowLe, rowCompare, rankedBefore.
  destruct (realCompare _ _); simpl; [|done..].
  destruct (col_days_played b.2 ?= col_days_played a.2) eqn:Hd; simpl.
  - apply Z.compare_eq in Hd. intros Hs. right. split; [done|].
    unfold String.leb. by destruct (String.compare a.1 b.1).
  - apply Z.compare_lt_iff in Hd. auto.
  - done.
Qed.

Lemma StronglySorted_impl {A} (R R' : A → A → Prop) l :
  (∀ x y, R x y → R' x y) → StronglySorted R l → StronglySorted R' l.
Proof.
  intros HR. induction 1 as [|x l Hl IH Hx]; constructor; [done|].
  eapply Forall_impl; eauto.
Qed.

Lemma NoDup_fst_filter {K V} (P : K * V → Prop) `{!∀ x, Decision (P x)}
    (l : list (K * V)) :
  NoDup l.*1 → NoDup (filter P l).*1.
Proof.
  induction l as [|[u b] l IH]; intros Hnd; [constructor|].
  rewrite fmap_cons in Hnd. apply NoDup_cons in Hnd as [Hnotin Hnd].
  rewrite filter_cons. destruct (decide _); [|by apply IH].
  rewrite fmap_cons. apply NoDup_cons. split; [|by apply IH].
  simpl. intros Hin. apply Hnotin.
  apply list_elem_of_fmap in Hin as [[u' b'] [Hu Hin]]. simpl in Hu. subst u'.
  apply list_elem_of_filter in Hin as [_ Hin].
  apply list_elem_of_fmap. by exists (u, b').
Qed.

(** ** The average of the query against the exact average

    The first term of the [ORDER BY] is a double: both columns are converted
    to [REAL], the score is multiplied by [1.0] and divided by the days.  The
    lemmas below compute this double for rows whose columns are below 2^53:
    the conversions and the product are exact, and the division keeps the
    quotient of the two mantissas rounded to the nearest integer, ties to
    even ([rne]).  For rows below 2^26 the rounding error is smaller than the
    distance of two different averages, so that the doubles compare as the
    exact averages do ([averageKey_exact]). *)

(** *** Mantissas of 53 binary digits *)

Lemma digits2_bounds p :
  2 ^ (Zpos (digits2_pos p) - 1) ≤ Zpos p < 2 ^ Zpos (digits2_pos p).
Proof.
  induction p as [p IH|p IH|]; simpl digits2_pos.
  - rewrite Pos2Z.inj_succ.
    replace (Z.succ (Zpos (digits2_pos p)) - 1)
      with (Z.succ (Zpos (digits2_pos p) - 1)) by lia.
    rewrite !Z.pow_succ_r by lia. lia.
  - rewrite Pos2Z.inj_succ.
    replace (Z.succ (Zpos (digits2_pos p)) - 1)
      with (Z.succ (Zpos (digits2_pos p) - 1)) by lia.
    rewrite !Z.pow_succ_r by lia. lia.
  - simpl. lia.
Qed.

Lemma digits2_unique p k :
  2 ^ (k - 1) ≤ Zpos p < 2 ^ k → Zpos (digits2_pos p) = k.
Proof.
  intros [Hlo Hhi]. pose proof (digits2_bounds p) as [Hl Hh].
  assert (0 < k).
  { destruct (decide (0 < k)); [done|].
    assert (2 ^ k ≤ 1); [|lia].
    destruct (decide (k = 0)) as [->|]; [simpl; lia|].
    rewrite Z.pow_neg_r by lia. lia. }
  assert (Zpos (digits2_pos p) - 1 < k).
  { apply (Z.pow_lt_mono_r_iff 2); lia. }
  assert (k - 1 < Zpos (digits2_pos p)).
  { apply (Z.pow_lt_mono_r_iff 2); lia. }
  lia.
Qed.

(** A positive number has 53 binary digits when it lies in [[2^52, 2^53)]. *)
Lemma digits2_53 p : digits2_pos p = 53%positive ↔ 2 ^ 52 ≤ Zpos p < 2 ^ 53.
Proof.
  split.
  - intros H. pose proof (digits2_bounds p) as Hb. by rewrite H in Hb.
  - intros H. apply (digits2_unique p 53) in H. congruence.
Qed.

(** Rounding leaves a mantissa of 53 digits as it is. *)
Lemma binary_round_aux_normal s m e :
  digits2_pos m = 53%positive → -1074 ≤ e ≤ 971 →
  binary_round_aux 53 1024 s (Zpos m) e loc_Exact = S754_finite s m e.
Proof.
  intros Hd He. unfold binary_round_aux, shr_fexp, Zdigits2.
  rewrite Hd.
  assert (Hf : fexp 53 1024 (53 + e) - e = 0).
  { unfold fexp, emin. lia. }
  rewrite Hf.
  cbn [shr shr_record_of_loc shr_m loc_of_shr_record round_nearest_even].
  rewrite Hd, Hf. cbn [shr shr_record_of_loc shr_m].
  assert ((e <=? 1024 - 53) = true) as -> by (apply Z.leb_le; lia). done.
Qed.

Lemma iter_xO_Z p d : Zpos (Pos.iter xO p d) = Zpos p * 2 ^ Zpos d.
Proof.
  induction d as [|d IH] using Pos.peano_ind.
  - simpl. lia.
  - rewrite Pos.iter_succ, Pos2Z.inj_xO, IH, Pos2Z.inj_succ, Z.pow_succ_r
      by lia.
    lia.
Qed.

(** The double of a positive integer below 2^53 is exact: the integer
    shifted to 53 digits, with the opposite exponent. *)
Lemma Z2SF_small p :
  Zpos p < 2 ^ 53 →
  ∃ m e, Z2SF (Zpos p) = S754_finite false m e
         ∧ digits2_pos m = 53%positive ∧ -52 ≤ e ≤ 0
         ∧ Zpos m = Zpos p * 2 ^ (- e).
Proof.
  intros Hp. unfold Z2SF, binary_normalize, binary_round.
  pose proof (digits2_bounds p) as [Hlo Hhi].
  set (n := Zpos (digits2_pos p)) in *.
  assert (Hn : 1 ≤ n ≤ 53).
  { split; [lia|]. destruct (decide (n ≤ 53)); [done|].
    assert (2 ^ 53 ≤ 2 ^ (n - 1)) by (apply Z.pow_le_mono_r; lia). lia. }
  assert (Hf : fexp 53 1024 (n + 0) = n - 53) by (unfold fexp, emin; lia).
  rewrite Hf. unfold shl_align.
  destruct (n - 53 - 0) as [|k|k] eqn:Hk; [|lia|].
  - assert (n = 53) by lia. exists p, 0. split.
    + apply binary_round_aux_normal; [|lia]. apply digits2_53.
      replace 52 with (n - 1) by lia. replace 53 with n at 2 by lia. done.
    + split; [|split; [lia|simpl; lia]]. apply digits2_53.
      replace 52 with (n - 1) by lia. replace 53 with n at 2 by lia. done.
  - assert (Hk' : Zpos k = 53 - n) by lia.
    assert (Hm : 2 ^ 52 ≤ Zpos (Pos.iter xO p k) < 2 ^ 53).
    { rewrite iter_xO_Z, Hk'.
      assert (E1 : 2 ^ 52 = 2 ^ (n - 1) * 2 ^ (53 - n)).
      { rewrite <- Z.pow_add_r by lia. f_equal. lia. }
      assert (E2 : 2 ^ 53 = 2 ^ n * 2 ^ (53 - n)).
      { rewrite <- Z.pow_add_r by lia. f_equal. lia. }
      rewrite E1, E2.
      assert (0 < 2 ^ (53 - n)) by (apply Z.pow_pos_nonneg; lia).
      split; [apply Z.mul_le_mono_nonneg_r; lia|].
      apply Z.mul_lt_mono_pos_r; lia. }
    exists (Pos.iter xO p k), (n - 53). split.
    + apply binary_round_aux_normal; [by apply digits2_53|lia].
    + split; [by apply digits2_53|]. split; [lia|].
      rewrite iter_xO_Z, Hk'. f_equal. f_equal. lia.
Qed.

(** Multiplying by [1.0] changes nothing. *)
Lemma SFmul_one s m e :
  digits2_pos m = 53%positive → -1022 ≤ e ≤ 971 →
  SFmul 53 1024 (S754_finite s m e) (Z2SF 1) = S754_finite s m e.
Proof.
  intros Hd He.
  change (Z2SF 1) with (S754_finite false 4503599627370496 (-52)).
  cbn [SFmul].
  assert (Hmul : (m * 4503599627370496)%positive = Pos.iter xO m 52).
  { rewrite Pos.mul_comm. reflexivity. }
  rewrite Hmul. unfold binary_round_aux, shr_fexp, Zdigits2.
  change (digits2_pos (Pos.iter xO m 52))
    with (Pos.iter Pos.succ (digits2_pos m) 52).
  rewrite Hd. change (Pos.iter Pos.succ 53%positive 52) with 105%positive.
  assert (Hf : fexp 53 1024 (105 + (e + -52)) - (e + -52) = 52).
  { unfold fexp, emin. lia. }
  rewrite Hf. cbn [shr].
  change (SpecFloat.iter_pos shr_1 52
            (shr_record_of_loc (Z.pos (Pos.iter xO m 52)) loc_Exact))
    with {| shr_m := Zpos m; shr_r := false; shr_s := false |}.
  cbn [shr_m loc_of_shr_record round_nearest_even shr_record_of_loc].
  rewrite Hd.
  assert (Hf' : fexp 53 1024 (53 + (e + -52 + 52)) - (e + -52 + 52) = 0).
  { unfold fexp, emin. lia. }
  rewrite Hf'. cbn [shr shr_m].
  assert ((e + -52 + 52 <=? 1024 - 53) = true) as -> by (apply Z.leb_le; lia).
  replace (e + -52 + 52) with e by lia. by destruct s.
Qed.

(** *** Rounding a quotient to 53 digits *)

Lemma loc_of_shr_record_of_loc m l :
  loc_of_shr_record (shr_record_of_loc m l) = l.
Proof. by destruct l as [|[]]. Qed.

(** The last step of [binary_round_aux]: a rounded mantissa in
    [[2^52, 2^53]] is stored, the mantissa [2^53] as [2^52] with the next
    exponent. *)
Lemma normal_after_round s M e :
  2 ^ 52 ≤ M ≤ 2 ^ 53 → -1010 ≤ e ≤ 910 →
  (let '(mrs'', e'') :=
     shr (shr_record_of_loc M loc_Exact) e
       (fexp 53 1024 (Zdigits2 M + e) - e) in
   match shr_m mrs'' with
   | 0 => S754_zero s
   | Z.pos m0 =>
       if e'' <=? 1024 - 53 then S754_finite s m0 e'' else S754_infinity s
   | Z.neg _ => S754_nan
   end) = normalFloat s M e.
Proof.
  intros HM He. unfold normalFloat.
  destruct (M <? 2 ^ 53) eqn:Hlt.
  - apply Z.ltb_lt in Hlt. destruct M as [|m|m]; try lia.
    assert (Hd : digits2_pos m = 53%positive) by (apply digits2_53; lia).
    unfold Zdigits2. rewrite Hd.
    assert (Hf : fexp 53 1024 (53 + e) - e = 0) by (unfold fexp, emin; lia).
    rewrite Hf. cbn [shr shr_record_of_loc shr_m].
    assert ((e <=? 1024 - 53) = true) as -> by (apply Z.leb_le; lia). done.
  - apply Z.ltb_ge in Hlt. assert (M = 2 ^ 53) as -> by lia.
    change (2 ^ 53) with 9007199254740992.
    unfold Zdigits2.
    change (digits2_pos 9007199254740992) with 54%positive.
    assert (Hf : fexp 53 1024 (54 + e) - e = 1) by (unfold fexp, emin; lia).
    rewrite Hf. cbn [shr SpecFloat.iter_pos shr_record_of_loc shr_1 shr_m].
    assert ((e + 1 <=? 1024 - 53) = true) as -> by (apply Z.leb_le; lia). done.
Qed.

Lemma round_nearest_even_bounds m l :
  Zpos m ≤ round_nearest_even (Zpos m) l ≤ Zpos m + 1.
Proof.
  unfold round_nearest_even.
  destruct l as [|[]]; try lia. destruct (IntDef.Z.even (Z.pos m)); lia.
Qed.

(** A quotient of 53 digits is rounded at its last digit. *)
Lemma binary_round_aux_53 s q e l :
  digits2_pos q = 53%positive → -1000 ≤ e ≤ 900 →
  binary_round_aux 53 1024 s (Zpos q) e l
  = normalFloat s (round_nearest_even (Zpos q) l) e.
Proof.
  intros Hd He. unfold binary_round_aux, shr_fexp at 1.
  unfold Zdigits2 at 1. rewrite Hd.
  assert (Hf : fexp 53 1024 (53 + e) - e = 0) by (unfold fexp, emin; lia).
  rewrite Hf. cbn [shr]. rewrite loc_of_shr_record_of_loc.
  replace (shr_m (shr_record_of_loc (Z.pos q) l)) with (Zpos q)
    by (by destruct l as [|[]]).
  unfold shr_fexp. apply normal_after_round; [|lia].
  pose proof (round_nearest_even_bounds q l).
  apply digits2_53 in Hd. lia.
Qed.

(** A quotient of 54 digits loses its last digit, which becomes the round
    bit; the sticky bit says whether the division left a remainder. *)
Lemma binary_round_aux_54 s q e l :
  digits2_pos q = 54%positive → -1000 ≤ e ≤ 900 →
  binary_round_aux 53 1024 s (Zpos q) e l
  = normalFloat s
      (round_nearest_even (Zpos q / 2)
         (loc_of_shr_record
            {| shr_m := Zpos q / 2; shr_r := Z.odd (Zpos q);
               shr_s := match l with loc_Exact => false | _ => true end |}))
      (e + 1).
Proof.
  intros Hd He. unfold binary_round_aux, shr_fexp at 1.
  unfold Zdigits2 at 1. rewrite Hd.
  assert (Hf : fexp 53 1024 (54 + e) - e = 1) by (unfold fexp, emin; lia).
  rewrite Hf. cbn [shr SpecFloat.iter_pos].
  pose proof (digits2_bounds q) as Hq. rewrite Hd in Hq.
  change (2 ^ (54 - 1)) with (2 ^ 53) in Hq.
  assert (Hshr :
    shr_1 (shr_record_of_loc (Z.pos q) l)
    = {| shr_m := Zpos q / 2; shr_r := Z.odd (Zpos q);
         shr_s := match l with loc_Exact => false | _ => true end |}).
  { destruct q as [p|p|]; [| |simpl in Hq; lia].
    - replace (Zpos p~1 / 2) with (Zpos p)
        by (rewrite Pos2Z.inj_xI; apply Z.div_unique with 1; lia).
      by destruct l as [|[]].
    - replace (Zpos p~0 / 2) with (Zpos p)
        by (rewrite Pos2Z.inj_xO; apply Z.div_unique with 0; lia).
      by destruct l as [|[]]. }
  rewrite Hshr. cbn [shr_m].
  unfold shr_fexp. apply normal_after_round; [|lia].
  assert (2 ^ 52 ≤ Zpos q / 2 < 2 ^ 53).
  { split; [apply Z.div_le_lower_bound; lia|apply Z.div_lt_upper_bound; lia]. }
  destruct (Z.pos q / 2) as [|m|m] eqn:Hm; try lia.
  pose proof (round_nearest_even_bounds m
    (loc_of_shr_record
       {| shr_m := Zpos m; shr_r := Z.odd (Zpos q);
          shr_s := match l with loc_Exact => false | _ => true end |})).
  lia.
Qed.

(** *** Rounding to the nearest integer, ties to even *)

(** The rounded quotient is at most one half away from the exact one. *)
Lemma rne_error N D :
  0 < D → 2 * N - D ≤ 2 * (rne N D * D) ≤ 2 * N + D.
Proof.
  intros HD. unfold rne.
  pose proof (Z.div_mod N D ltac:(lia)) as Hdm.
  pose proof (Z.mod_pos_bound N D HD) as Hr.
  set (q := N / D) in *. set (r := N mod D) in *.
  destruct (D <? 2 * r) eqn:H1; simpl.
  - apply Z.ltb_lt in H1. nia.
  - apply Z.ltb_ge in H1. destruct (2 * r =? D) eqn:H2; simpl.
    + apply Z.eqb_eq in H2. destruct (Z.odd q); nia.
    + nia.
Qed.

Lemma rne_range N D :
  0 < D → 2 ^ 52 * D ≤ N < 2 ^ 53 * D → 2 ^ 52 ≤ rne N D ≤ 2 ^ 53.
Proof.
  intros HD HN. unfold rne.
  assert (2 ^ 52 ≤ N / D < 2 ^ 53).
  { split; [apply Z.div_le_lower_bound; lia|apply Z.div_lt_upper_bound; lia]. }
  destruct (_ || _); lia.
Qed.

(** Equal fractions have the same rounded quotient. *)
Lemma rne_ratio N1 D1 N2 D2 :
  0 < D1 → 0 < D2 → N1 * D2 = N2 * D1 → rne N1 D1 = rne N2 D2.
Proof.
  intros H1 H2 HN. unfold rne.
  pose proof (Z.div_mod N1 D1 ltac:(lia)) as Hdm1.
  pose proof (Z.mod_pos_bound N1 D1 H1) as Hr1.
  pose proof (Z.div_mod N2 D2 ltac:(lia)) as Hdm2.
  pose proof (Z.mod_pos_bound N2 D2 H2) as Hr2.
  set (q1 := N1 / D1) in *. set (r1 := N1 mod D1) in *.
  set (q2 := N2 / D2) in *. set (r2 := N2 mod D2) in *.
  assert (Hb1 : 0 ≤ r1 * D2 < D1 * D2) by nia.
  assert (Hb2 : 0 ≤ r2 * D1 < D1 * D2) by nia.
  assert (He : D1 * D2 * (q1 - q2) = r2 * D1 - r1 * D2).
  { rewrite Hdm1, Hdm2 in HN. lia. }
  assert (Hq : q1 = q2).
  { destruct (Z.lt_trichotomy q1 q2) as [?|[?|?]]; [|done|]; nia. }
  assert (Hr : r1 * D2 = r2 * D1) by (rewrite Hq in He; lia).
  rewrite <- Hq.
  assert ((D1 <? 2 * r1) = (D2 <? 2 * r2)) as ->.
  { destruct (Z.ltb_spec D1 (2 * r1)), (Z.ltb_spec D2 (2 * r2));
      try done; nia. }
  assert ((2 * r1 =? D1) = (2 * r2 =? D2)) as ->.
  { destruct (Z.eqb_spec (2 * r1) D1), (Z.eqb_spec (2 * r2) D2);
      try done; nia. }
  done.
Qed.

(** The position of a remainder [r] against the half of the divisor. *)
Lemma new_location_exact D r :
  0 < D → 0 ≤ r < D →
  new_location D r
  = if r =? 0 then loc_Exact else loc_Inexact (2 * r ?= D).
Proof.
  intros HD Hr. unfold new_location, new_location_even, new_location_odd.
  destruct (IntDef.Z.even D) eqn:He; [done|].
  destruct (r =? 0); [done|]. f_equal.
  assert (Ho : Z.odd D = true).
  { rewrite <- Z.negb_even. change Z.even with IntDef.Z.even. by rewrite He. }
  apply Z.odd_spec in Ho as [k Hk].
  destruct (Z.compare_spec (2 * r + 1) D), (Z.compare_spec (2 * r) D);
    try done; lia.
Qed.

Lemma rne_round N D :
  0 < D →
  round_nearest_even (N / D) (new_location D (N mod D)) = rne N D.
Proof.
  intros HD. pose proof (Z.mod_pos_bound N D HD) as Hr.
  rewrite new_location_exact by done. unfold rne, round_nearest_even.
  set (q := N / D). set (r := N mod D) in *.
  change IntDef.Z.even with Z.even. rewrite <- Z.negb_odd.
  destruct (Z.eqb_spec r 0) as [->|Hr0].
  { assert ((D <? 2 * 0) = false) as -> by (apply Z.ltb_ge; lia).
    assert ((2 * 0 =? D) = false) as -> by (apply Z.eqb_neq; lia).
    simpl. lia. }
  destruct (Z.compare_spec (2 * r) D) as [Hc|Hc|Hc].
  - assert ((D <? 2 * r) = false) as -> by (apply Z.ltb_ge; lia).
    assert ((2 * r =? D) = true) as -> by (apply Z.eqb_eq; lia).
    simpl. destruct (Z.odd q); simpl; lia.
  - assert ((D <? 2 * r) = false) as -> by (apply Z.ltb_ge; lia).
    assert ((2 * r =? D) = false) as -> by (apply Z.eqb_neq; lia).
    simpl. lia.
  - assert ((D <? 2 * r) = true) as -> by (apply Z.ltb_lt; lia).
    simpl. lia.
Qed.

(** The same from the quotient with one more digit, as the division
    computes it when the dividend is not below the divisor. *)
Lemma rne_round_half N D :
  0 < D →
  round_nearest_even ((2 * N) / D / 2)
    (loc_of_shr_record
       {| shr_m := (2 * N) / D / 2; shr_r := Z.odd ((2 * N) / D);
          shr_s := match new_location D ((2 * N) mod D) with
                   | loc_Exact => false | _ => true end |})
  = rne N D.
Proof.
  intros HD. pose proof (Z.mod_pos_bound (2 * N) D HD) as Hr2.
  rewrite new_location_exact by done.
  pose proof (Z.div_mod (2 * N) D ltac:(lia)) as Hdm2.
  pose proof (Z.div_mod N D ltac:(lia)) as Hdm.
  pose proof (Z.mod_pos_bound N D HD) as Hr.
  unfold rne.
  set (q2 := (2 * N) / D) in *. set (r2 := (2 * N) mod D) in *.
  set (q := N / D) in *. set (r := N mod D) in *.
  destruct (Z.ltb_spec D (2 * r)) as [Hc|Hc]; simpl.
  - assert (q2 = 2 * q + 1) as -> by nia.
    assert (r2 = 2 * r - D) by nia.
    replace ((2 * q + 1) / 2) with q by (apply Z.div_unique with 1; lia).
    rewrite (Z.add_comm (2 * q) 1), Z.odd_add_mul_2. simpl.
    destruct (Z.eqb_spec r2 0); [lia|]. simpl. done.
  - destruct (Z.eqb_spec (2 * r) D) as [He|He]; simpl.
    + assert (q2 = 2 * q + 1) as -> by nia.
      assert (r2 = 0) as -> by nia.
      replace ((2 * q + 1) / 2) with q by (apply Z.div_unique with 1; lia).
      rewrite (Z.add_comm (2 * q) 1), Z.odd_add_mul_2. simpl.
      change IntDef.Z.even with Z.even. rewrite <- Z.negb_odd.
      destruct (Z.odd q); simpl; lia.
    + assert (q2 = 2 * q) as -> by nia.
      assert (r2 = 2 * r) by nia.
      replace (2 * q / 2) with q by (apply Z.div_unique with 0; lia).
      rewrite Z.odd_mul. simpl.
      destruct (r2 =? 0); simpl; lia.
Qed.

(** *** The division of two doubles *)

(** The quotient of two positive doubles with mantissas of 53 digits: the
    mantissa is the rounded quotient of the mantissas, scaled by 2^52 when
    the dividend's is not the smaller one and by 2^53 when it is. *)
Lemma SFdiv_normal mx ex my ey :
  digits2_pos mx = 53%positive → digits2_pos my = 53%positive →
  -52 ≤ ex ≤ 0 → -52 ≤ ey ≤ 0 →
  SFdiv 53 1024 (S754_finite false mx ex) (S754_finite false my ey)
  = if Zpos my <=? Zpos mx
    then normalFloat false (rne (Zpos mx * 2 ^ 52) (Zpos my)) (ex - ey - 52)
    else normalFloat false (rne (Zpos mx * 2 ^ 53) (Zpos my)) (ex - ey - 53).
Proof.
  intros Hdx Hdy Hex Hey.
  pose proof (proj1 (digits2_53 mx) Hdx) as Hmx.
  pose proof (proj1 (digits2_53 my) Hdy) as Hmy.
  unfold SFdiv, SFdiv_core_binary, Zdigits2. rewrite Hdx, Hdy.
  assert (He' : IntDef.Z.min (fexp 53 1024 (53 + ex - (53 + ey))) (ex - ey)
                = ex - ey - 53) by (unfold fexp, emin; lia).
  rewrite He'.
  replace (ex - ey - (ex - ey - 53)) with 53 by lia.
  cbv zeta iota.
  change (IntDef.Z.shiftl (Z.pos mx) 53) with (Z.shiftl (Z.pos mx) 53).
  rewrite Z.shiftl_mul_pow2 by lia.
  set (N := Zpos mx * 2 ^ 53). set (D := Zpos my).
  assert (HD : 0 < D) by done.
  change IntDef.Z.div_eucl with Z.div_eucl.
  destruct (Z.div_eucl N D) as [q r] eqn:Hde.
  assert (Hq : q = N / D) by (unfold Z.div; by rewrite Hde).
  assert (Hr : r = N mod D) by (unfold Z.modulo; by rewrite Hde).
  simpl xorb.
  destruct (Z.leb_spec D (Zpos mx)) as [Hle|Hlt].
  - assert (Hq54 : 2 ^ 53 ≤ q < 2 ^ 54).
    { rewrite Hq. split; [apply Z.div_le_lower_bound|apply Z.div_lt_upper_bound];
        unfold N; lia. }
    destruct q as [|pq|pq]; try lia.
    rewrite binary_round_aux_54;
      [|apply (inj Zpos), digits2_unique; lia|lia].
    replace (ex - ey - 53 + 1) with (ex - ey - 52) by lia.
    f_equal. rewrite Hq, Hr.
    replace N with (2 * (Zpos mx * 2 ^ 52)) by (unfold N; lia).
    by apply rne_round_half.
  - assert (Hq53 : 2 ^ 52 ≤ q < 2 ^ 53).
    { rewrite Hq. split; [apply Z.div_le_lower_bound|apply Z.div_lt_upper_bound];
        unfold N, D in *; lia. }
    destruct q as [|pq|pq]; try lia.
    rewrite binary_round_aux_53; [|apply digits2_53; lia|lia].
    f_equal. rewrite Hq, Hr. by apply rne_round.
Qed.

(** *** The key of a row *)

(** A score of zero gives the double zero. *)
Lemma averageKey_zero r :
  col_score r = 0 → 0 < col_days_played r < 2 ^ 53 →
  averageKey r = S754_zero false.
Proof.
  intros Hs Hd. unfold averageKey. rewrite Hs.
  destruct (col_days_played r) as [|pd|pd]; try lia.
  destruct (Z2SF_small pd) as (m & e & -> & _); [lia|]. done.
Qed.

(** For a score in [[0, 2^53)] the key of the query is also the average
    that the line of the player shows,
    [float64(totalScore) / float64(daysPlayed)]. *)
Lemma averageKey_averageScore r :
  0 ≤ col_score r < 2 ^ 53 → averageKey r = averageScore r.
Proof.
  intros Hs. unfold averageKey, averageScore.
  destruct (col_score r) as [|ps|ps]; [done| |lia].
  destruct (Z2SF_small ps) as (m & e & -> & Hd & He & _); [lia|].
  rewrite SFmul_one by (done || lia). done.
Qed.

(** The key of a row with a positive score: a rounded quotient [N / D] in
    [[2^52, 2^53)] with an exponent [E], where [N / D * 2^E] is the exact
    average. *)
Lemma averageKey_pos r :
  0 < col_score r < 2 ^ 53 → 0 < col_days_played r < 2 ^ 53 →
  ∃ N D E,
    averageKey r = normalFloat false (rne N D) E
    ∧ 0 < D ∧ 2 ^ 52 * D ≤ N < 2 ^ 53 * D ∧ -200 ≤ E
    ∧ N * 2 ^ (E + 200) * col_days_played r = col_score r * D * 2 ^ 200.
Proof.
  intros Hs Hd. unfold averageKey.
  destruct (col_score r) as [|ps|ps]; try lia.
  destruct (col_days_played r) as [|pd|pd]; try lia.
  destruct (Z2SF_small ps) as (ms & es & -> & Hds & Hes & Hms); [lia|].
  destruct (Z2SF_small pd) as (md & ed & -> & Hdd & Hed & Hmd); [lia|].
  rewrite SFmul_one by (done || lia).
  rewrite SFdiv_normal by done.
  pose proof (proj1 (digits2_53 ms) Hds) as Hbs.
  pose proof (proj1 (digits2_53 md) Hdd) as Hbd.
  assert (Hpow : ∀ c, 52 ≤ c ≤ 53 →
    2 ^ (- es) * 2 ^ c * 2 ^ (es - ed - c + 200) = 2 ^ (- ed) * 2 ^ 200).
  { intros c Hc. rewrite <- !Z.pow_add_r by lia. f_equal. lia. }
  destruct (Z.leb_spec (Zpos md) (Zpos ms)) as [Hle|Hlt].
  - exists (Zpos ms * 2 ^ 52), (Zpos md), (es - ed - 52).
    split; [done|]. split; [done|]. split; [lia|]. split; [lia|].
    rewrite Hms, Hmd. specialize (Hpow 52 ltac:(lia)).
    set (a := 2 ^ (- es)) in *. set (b := 2 ^ (es - ed - 52 + 200)) in *.
    set (c := 2 ^ (- ed)) in *. set (T := 2 ^ 200) in *. set (u := 2 ^ 52) in *.
    transitivity (Zpos ps * Zpos pd * (a * u * b)); [ring|].
    rewrite Hpow. ring.
  - exists (Zpos ms * 2 ^ 53), (Zpos md), (es - ed - 53).
    split; [done|]. split; [done|]. split; [lia|]. split; [lia|].
    rewrite Hms, Hmd. specialize (Hpow 53 ltac:(lia)).
    set (a := 2 ^ (- es)) in *. set (b := 2 ^ (es - ed - 53 + 200)) in *.
    set (c := 2 ^ (- ed)) in *. set (T := 2 ^ 200) in *. set (u := 2 ^ 53) in *.
    transitivity (Zpos ps * Zpos pd * (a * u * b)); [ring|].
    rewrite Hpow. ring.
Qed.

(** *** Comparing doubles by their values *)

Lemma pow2_step e e' :
  -200 ≤ e → e < e' → 2 * 2 ^ (e + 200) ≤ 2 ^ (e' + 200).
Proof.
  intros He Hlt.
  replace (e' + 200) with ((e' - e - 1) + (1 + (e + 200))) by lia.
  rewrite (Z.pow_add_r 2 (e' - e - 1)), (Z.pow_add_r 2 1) by lia.
  assert (0 < 2 ^ (e' - e - 1)) by (apply Z.pow_pos_nonneg; lia).
  assert (0 < 2 ^ (e + 200)) by (apply Z.pow_pos_nonneg; lia).
  change (2 ^ 1) with 2.
  set (a := 2 ^ (e' - e - 1)) in *. set (b := 2 ^ (e + 200)) in *. nia.
Qed.

(** Positive doubles with mantissas of 53 digits compare as their values,
    here scaled by 2^200 to integers. *)
Lemma finite_compare m1 e1 m2 e2 :
  2 ^ 52 ≤ Zpos m1 < 2 ^ 53 → 2 ^ 52 ≤ Zpos m2 < 2 ^ 53 →
  -200 ≤ e1 → -200 ≤ e2 →
  realCompare (S754_finite false m1 e1) (S754_finite false m2 e2)
  = (Zpos m1 * 2 ^ (e1 + 200) ?= Zpos m2 * 2 ^ (e2 + 200)).
Proof.
  intros H1 H2 He1 He2. unfold realCompare, SFcompare. simpl.
  destruct (Z.compare_spec e1 e2) as [->|Hlt|Hgt].
  - assert (0 < 2 ^ (e2 + 200)) by (apply Z.pow_pos_nonneg; lia).
    change PosDef.Pos.compare_cont with Pos.compare_cont.
    change (Pos.compare_cont Eq m1 m2) with (Zpos m1 ?= Zpos m2).
    destruct (Z.compare_spec (Zpos m1) (Zpos m2)) as [Hc|Hc|Hc]; symmetry;
      [apply Z.compare_eq_iff|apply Z.compare_lt_iff|apply Z.compare_gt_iff];
      nia.
  - symmetry. apply Z.compare_lt_iff.
    pose proof (pow2_step e1 e2 He1 Hlt).
    assert (0 < 2 ^ (e1 + 200)) by (apply Z.pow_pos_nonneg; lia).
    nia.
  - symmetry. apply Z.compare_gt_iff.
    pose proof (pow2_step e2 e1 He2 ltac:(lia)).
    assert (0 < 2 ^ (e2 + 200)) by (apply Z.pow_pos_nonneg; lia).
    nia.
Qed.

Lemma normalFloat_finite M E :
  2 ^ 52 ≤ M ≤ 2 ^ 53 → -200 ≤ E →
  ∃ m e, normalFloat false M E = S754_finite false m e
         ∧ 2 ^ 52 ≤ Zpos m < 2 ^ 53 ∧ -200 ≤ e
         ∧ Zpos m * 2 ^ (e + 200) = M * 2 ^ (E + 200).
Proof.
  intros HM HE. unfold normalFloat.
  destruct (Z.ltb_spec M (2 ^ 53)) as [Hlt|Hge].
  - exists (Z.to_pos M), E. rewrite Z2Pos.id by lia.
    repeat split; lia.
  - exists 4503599627370496%positive, (E + 1).
    split; [done|]. split; [done|]. split; [lia|].
    assert (M = 2 ^ 53) as -> by lia.
    replace (E + 1 + 200) with (1 + (E + 200)) by lia.
    rewrite Z.pow_add_r by lia. change (2 ^ 1) with 2. lia.
Qed.

Lemma normalFloat_compare M1 E1 M2 E2 :
  2 ^ 52 ≤ M1 ≤ 2 ^ 53 → 2 ^ 52 ≤ M2 ≤ 2 ^ 53 → -200 ≤ E1 → -200 ≤ E2 →
  realCompare (normalFloat false M1 E1) (normalFloat false M2 E2)
  = (M1 * 2 ^ (E1 + 200) ?= M2 * 2 ^ (E2 + 200)).
Proof.
  intros H1 H2 He1 He2.
  destruct (normalFloat_finite M1 E1 H1 He1) as (m1 & e1 & -> & ? & ? & <-).
  destruct (normalFloat_finite M2 E2 H2 He2) as (m2 & e2 & -> & ? & ? & <-).
  by apply finite_compare.
Qed.

(** *** The order of the keys is the order of the exact averages *)

(** From the exact scaling [N * P * d = s * D * T] of a quotient in
    [[2^52, 2^53)]: the scaled input lies between the neighbouring powers. *)
Lemma scaled_bounds s d N D P T :
  0 < D → 0 < d → 0 < P →
  2 ^ 52 * D ≤ N < 2 ^ 53 * D → N * P * d = s * D * T →
  2 ^ 52 * (P * d) ≤ s * T < 2 ^ 53 * (P * d).
Proof.
  intros HD Hd HP HN Heq.
  assert (0 < P * d) by lia.
  assert (H1 : 2 ^ 52 * (P * d) * D ≤ s * T * D) by nia.
  assert (H2 : s * T * D < 2 ^ 53 * (P * d) * D) by nia.
  split.
  - by apply Z.mul_le_mono_pos_r in H1.
  - by apply Z.mul_lt_mono_pos_r in H2.
Qed.

(** Two different averages [s1 / d1 < s2 / d2] differ by at least
    [1 / (d1 * d2)]; with [s1 * d2 < 2^52] this is more than the two
    rounding errors, so the rounded values are in the same strict order. *)
Lemma rounded_strict s1 d1 N1 D1 P1 s2 d2 N2 D2 P2 T :
  0 < T → 0 < d1 → 0 < d2 → 0 < D1 → 0 < D2 → 0 < P1 → 0 < P2 →
  2 ^ 52 * D1 ≤ N1 < 2 ^ 53 * D1 → 2 ^ 52 * D2 ≤ N2 < 2 ^ 53 * D2 →
  N1 * P1 * d1 = s1 * D1 * T → N2 * P2 * d2 = s2 * D2 * T →
  0 ≤ s1 → s1 * d2 < s2 * d1 → s1 * d2 < 2 ^ 52 →
  rne N1 D1 * P1 < rne N2 D2 * P2.
Proof.
  intros HT Hd1 Hd2 HD1 HD2 HP1 HP2 HN1 HN2 He1 He2 Hs1 Hlt Hb.
  pose proof (rne_error N1 D1 HD1) as [_ Hr1].
  pose proof (rne_error N2 D2 HD2) as [Hr2 _].
  pose proof (scaled_bounds _ _ _ _ _ _ HD1 Hd1 HP1 HN1 He1) as [Hb1 _].
  pose proof (scaled_bounds _ _ _ _ _ _ HD2 Hd2 HP2 HN2 He2) as [Hb2 _].
  set (M1 := rne N1 D1) in *. set (M2 := rne N2 D2) in *.
  (* 2 M1 P1 d1 ≤ 2 s1 T + P1 d1 *)
  assert (Hu : 2 * (M1 * (P1 * d1)) ≤ 2 * (s1 * T) + P1 * d1).
  { apply (Z.mul_le_mono_pos_r _ _ D1); [done|].
    assert (0 < P1 * d1) by lia.
    transitivity ((2 * N1 + D1) * (P1 * d1)); [nia|].
    apply Z.eq_le_incl.
    replace ((2 * N1 + D1) * (P1 * d1))
      with (2 * (N1 * P1 * d1) + D1 * (P1 * d1)) by ring.
    rewrite He1. ring. }
  assert (Hl : 2 * (s2 * T) - P2 * d2 ≤ 2 * (M2 * (P2 * d2))).
  { apply (Z.mul_le_mono_pos_r _ _ D2); [done|].
    assert (0 < P2 * d2) by lia.
    transitivity ((2 * N2 - D2) * (P2 * d2)); [|nia].
    apply Z.eq_le_incl.
    replace ((2 * N2 - D2) * (P2 * d2))
      with (2 * (N2 * P2 * d2) - D2 * (P2 * d2)) by ring.
    rewrite He2. ring. }
  (* scale by 2^52 *)
  assert (Hu' : 2 ^ 53 * (M1 * (P1 * d1)) ≤ (2 ^ 53 + 1) * (s1 * T)) by lia.
  assert (Hl' : (2 ^ 53 - 1) * (s2 * T) ≤ 2 ^ 53 * (M2 * (P2 * d2))) by lia.
  assert (Hx : s1 * d2 + 1 ≤ s2 * d1) by lia.
  set (x := s1 * d2) in *. set (y := s2 * d1) in *.
  assert (Hu2 : 2 ^ 53 * (M1 * P1) * (d1 * d2) ≤ (2 ^ 53 + 1) * x * T).
  { transitivity ((2 ^ 53 + 1) * (s1 * T) * d2); [|unfold x; apply Z.eq_le_incl; ring].
    replace (2 ^ 53 * (M1 * P1) * (d1 * d2))
      with (2 ^ 53 * (M1 * (P1 * d1)) * d2) by ring.
    apply Z.mul_le_mono_nonneg_r; lia. }
  assert (Hl2 : (2 ^ 53 - 1) * y * T ≤ 2 ^ 53 * (M2 * P2) * (d1 * d2)).
  { transitivity ((2 ^ 53 - 1) * (s2 * T) * d1); [unfold y; apply Z.eq_le_incl; ring|].
    replace (2 ^ 53 * (M2 * P2) * (d1 * d2))
      with (2 ^ 53 * (M2 * (P2 * d2)) * d1) by ring.
    apply Z.mul_le_mono_nonneg_r; lia. }
  assert (Hmid : (2 ^ 53 + 1) * x * T < (2 ^ 53 - 1) * y * T).
  { apply Z.mul_lt_mono_pos_r; [done|]. lia. }
  assert (Hfin : (M1 * P1) * (2 ^ 53 * (d1 * d2)) < (M2 * P2) * (2 ^ 53 * (d1 * d2))) by lia.
  apply Z.mul_lt_mono_pos_r in Hfin; [done|]. lia.
Qed.

(** Equal averages have the same exponent and the same rounded
    mantissa. *)
Lemma rounded_equal s1 d1 N1 D1 E1 s2 d2 N2 D2 E2 :
  0 < d1 → 0 < d2 → 0 < D1 → 0 < D2 → -200 ≤ E1 → -200 ≤ E2 →
  2 ^ 52 * D1 ≤ N1 < 2 ^ 53 * D1 → 2 ^ 52 * D2 ≤ N2 < 2 ^ 53 * D2 →
  N1 * 2 ^ (E1 + 200) * d1 = s1 * D1 * 2 ^ 200 →
  N2 * 2 ^ (E2 + 200) * d2 = s2 * D2 * 2 ^ 200 →
  s1 * d2 = s2 * d1 →
  rne N1 D1 * 2 ^ (E1 + 200) = rne N2 D2 * 2 ^ (E2 + 200).
Proof.
  intros Hd1 Hd2 HD1 HD2 HE1 HE2 HN1 HN2 He1 He2 Heq.
  assert (HP1 : 0 < 2 ^ (E1 + 200)) by (apply Z.pow_pos_nonneg; lia).
  assert (HP2 : 0 < 2 ^ (E2 + 200)) by (apply Z.pow_pos_nonneg; lia).
  assert (HT : 0 < 2 ^ 200) by done.
  pose proof (scaled_bounds _ _ _ _ _ _ HD1 Hd1 HP1 HN1 He1) as Hb1.
  pose proof (scaled_bounds _ _ _ _ _ _ HD2 Hd2 HP2 HN2 He2) as Hb2.
  assert (Hsep : ∀ sa da Pa sb db Pb T,
            0 < T → 0 < da → 0 < db → 0 < Pa → 2 * Pa ≤ Pb →
            sa * T < 2 ^ 53 * (Pa * da) → 2 ^ 52 * (Pb * db) ≤ sb * T →
            sa * db = sb * da → False).
  { intros sa da Pa sb db Pb T HT' Hda Hdb HPa HPb Hu Hl Hsd.
    assert (H1 : sa * T * db < 2 ^ 53 * (Pa * da) * db)
      by (apply Z.mul_lt_mono_pos_r; lia).
    assert (H2 : 2 ^ 52 * (Pb * db) * da ≤ sb * T * da)
      by (apply Z.mul_le_mono_nonneg_r; lia).
    assert (H3 : 2 ^ 53 * (Pa * da) * db ≤ 2 ^ 52 * (Pb * db) * da).
    { replace (2 ^ 53 * (Pa * da) * db) with (2 ^ 52 * (da * db) * (2 * Pa))
        by (change (2 ^ 53) with (2 ^ 52 * 2); ring).
      replace (2 ^ 52 * (Pb * db) * da) with (2 ^ 52 * (da * db) * Pb) by ring.
      apply Z.mul_le_mono_nonneg_l; [|done]. lia. }
    assert (H4 : sa * T * db = sb * T * da).
    { transitivity (sa * db * T); [ring|]. rewrite Hsd. ring. }
    lia. }
  assert (HE : E1 = E2).
  { destruct (Z.lt_trichotomy E1 E2) as [Hl|[?|Hg]]; [exfalso|done|exfalso].
    - apply (Hsep s1 d1 (2 ^ (E1 + 200)) s2 d2 (2 ^ (E2 + 200)) (2 ^ 200));
        try done; [by apply pow2_step|apply Hb1|apply Hb2].
    - apply (Hsep s2 d2 (2 ^ (E2 + 200)) s1 d1 (2 ^ (E1 + 200)) (2 ^ 200));
        try done; [by apply pow2_step|apply Hb2|apply Hb1]. }
  subst E2. f_equal. apply rne_ratio; [done..|].
  set (P := 2 ^ (E1 + 200)) in *. set (T := 2 ^ 200) in *.
  apply (Z.mul_cancel_r _ _ (P * d1 * d2)); [lia|].
  transitivity (N1 * P * d1 * (D2 * d2)); [ring|]. rewrite He1.
  transitivity (N2 * P * d2 * (D1 * d1)); [|ring]. rewrite He2.
  transitivity (s1 * d2 * (D1 * D2 * T)); [ring|]. rewrite Heq. ring.
Qed.

(** On rows below 2^26 the keys of the query compare as the exact
    averages. *)
Lemma averageKey_exact a b :
  boundedRow a → boundedRow b →
  realCompare (averageKey a) (averageKey b)
  = (col_score a * col_days_played b ?= col_score b * col_days_played a).
Proof.
  intros [Hsa Hda] [Hsb Hdb].
  assert (Hprod : ∀ s d, 0 ≤ s < 2 ^ 26 → 0 < d < 2 ^ 26 → s * d < 2 ^ 52).
  { intros s d Hs Hd. change (2 ^ 52) with (2 ^ 26 * 2 ^ 26). nia. }
  destruct (Z.eq_dec (col_score a) 0) as [Ha0|Ha0];
    destruct (Z.eq_dec (col_score b) 0) as [Hb0|Hb0].
  - rewrite !averageKey_zero by (done || lia). rewrite Ha0, Hb0. done.
  - rewrite (averageKey_zero a) by (done || lia).
    destruct (averageKey_pos b) as (N & D & E & -> & HD & HN & HE & _);
      [lia..|].
    destruct (normalFloat_finite (rne N D) E) as (m & e & -> & _);
      [by apply rne_range|done|].
    rewrite Ha0. symmetry. apply Z.compare_lt_iff. nia.
  - rewrite (averageKey_zero b) by (done || lia).
    destruct (averageKey_pos a) as (N & D & E & -> & HD & HN & HE & _);
      [lia..|].
    destruct (normalFloat_finite (rne N D) E) as (m & e & -> & _);
      [by apply rne_range|done|].
    rewrite Hb0. symmetry. apply Z.compare_gt_iff. nia.
  - destruct (averageKey_pos a) as (N1 & D1 & E1 & -> & HD1 & HN1 & HE1 & He1);
      [lia..|].
    destruct (averageKey_pos b) as (N2 & D2 & E2 & -> & HD2 & HN2 & HE2 & He2);
      [lia..|].
    rewrite normalFloat_compare by (done || by apply rne_range).
    assert (HP1 : 0 < 2 ^ (E1 + 200)) by (apply Z.pow_pos_nonneg; lia).
    assert (HP2 : 0 < 2 ^ (E2 + 200)) by (apply Z.pow_pos_nonneg; lia).
    destruct (Z.compare_spec (col_score a * col_days_played b)
                (col_score b * col_days_played a)) as [Hc|Hc|Hc].
    + apply Z.compare_eq_iff.
      apply (rounded_equal (col_score a) (col_days_played a) _ _ _
               (col_score b) (col_days_played b)); (done || lia).
    + apply Z.compare_lt_iff.
      apply (rounded_strict (col_score a) (col_days_played a) _ _ _
               (col_score b) (col_days_played b) _ _ _ (2 ^ 200));
        try (done || lia). by apply Hprod.
    + apply Z.compare_gt_iff.
      apply (rounded_strict (col_score b) (col_days_played b) _ _ _
               (col_score a) (col_days_played a) _ _ _ (2 ^ 200));
        try (done || lia). by apply Hprod.
Qed.

Lemma exactAverage_compare a b :
  0 < col_days_played a → 0 < col_days_played b →
  QArith_base.Qcompare (exactAverage a) (exactAverage b)
  = (col_score a * col_days_played b ?= col_score b * col_days_played a).
Proof.
  intros Ha Hb. unfold QArith_base.Qcompare, exactAverage. simpl.
  by rewrite !Z2Pos.id.
Qed.

Lemma rankedBefore_exact a b :
  boundedRow a.2 → boundedRow b.2 → rankedBefore a b → exactBefore a b.
Proof.
  intros Ha Hb. unfold rankedBefore, exactBefore.
  rewrite averageKey_exact, exactAverage_compare by (done || apply Ha || apply Hb).
  done.
Qed.

(** A sorted list is sorted for every relation that holds wherever the
    first one does between its elements. *)
Lemma StronglySorted_impl_elem {A} (R R' : A → A → Prop) l :
  (∀ x y, x ∈ l → y ∈ l → R x y → R' x y) →
  StronglySorted R l → StronglySorted R' l.
Proof.
  intros HR Hs. induction Hs as [|x l Hl IH Hx]; constructor.
  - apply IH. intros y z Hy Hz. apply HR; by right.
  - rewrite Forall_forall in *. intros y Hy.
    apply HR; [left|by right|by apply Hx].
Qed.

Section LeaderboardClaims.

Variable rangeOf : ∀ V : Type, gmap string V → list (string * V).
Hypothesis rangeOf_perm : ∀ V (m : gmap string V), rangeOf V m ≡ₚ map_to_list m.

Lemma boardLines_usernames rows : ∀ rank,
  line_username <$> boardLines noFaults rank rows = rows.*1.
Proof.
  induction rows as [|[u r] rows IH]; intros rank; [done|].
  simpl. by rewrite IH.
Qed.

Lemma leaderboardRows_perm t :
  leaderboardRows rangeOf t
  ≡ₚ filter (fun ur : string * Row => 0 < col_days_played ur.2)
            (map_to_list t).
Proof.
  unfold leaderboardRows. rewrite merge_sort_Permutation.
  by rewrite rangeOf_perm.
Qed.

(** C4, amended: with no storage failure, the leaderboard that is sent
    lists, one line each and in this order, the rows of the query: exactly
    the entries of the ledger with [days_played > 0], each once, sorted by
    ascending double [score * 1.0 / days_played] (the [REAL] division of
    the query), equal doubles by descending [days_played], and equal days
    by ascending identifier.  When every listed row has its score in
    [[0, 2^26)] and fewer than 2^26 days, this is the order of the exact
    averages [CumulativeScore / DaysPlayed]: ascending average, equal
    averages by descending [days_played], and equal days by ascending
    identifier. *)
Theorem C4_leaderboard_ranking db :
  ∃ rows,
    sendLeaderboard noFaults rangeOf db
    = [Leaderboard (boardLines noFaults 1 rows)]
    ∧ line_username <$> boardLines noFaults 1 rows = rows.*1
    ∧ NoDup rows.*1
    ∧ (∀ u r, (u, r) ∈ rows
              ↔ table db !! u = Some r ∧ 0 < col_days_played r)
    ∧ StronglySorted rankedBefore rows
    ∧ ((∀ u r, (u, r) ∈ rows →
               0 ≤ col_score r < 2 ^ 26 ∧ col_days_played r < 2 ^ 26)
       → StronglySorted exactBefore rows).
Proof.
  exists (leaderboardRows rangeOf (table db)).
  assert (Hin : ∀ u r, (u, r) ∈ leaderboardRows rangeOf (table db)
                       ↔ table db !! u = Some r ∧ 0 < col_days_played r).
  { intros u r. rewrite leaderboardRows_perm.
    rewrite list_elem_of_filter, elem_of_map_to_list. simpl. tauto. }
  assert (Hsorted : StronglySorted rankedBefore
                      (leaderboardRows rangeOf (table db))).
  { apply (StronglySorted_impl rowLe); [apply rowLe_rankedBefore|].
    unfold leaderboardRows. apply StronglySorted_merge_sort; apply _. }
  split; [done|]. split; [apply boardLines_usernames|].
  split; [|split; [done|split; [done|]]].
  - rewrite leaderboardRows_perm. apply NoDup_fst_filter.
    apply NoDup_fst_map_to_list.
  - intros Hb. revert Hsorted. apply StronglySorted_impl_elem.
    intros [u r] [u' r'] Hur Hur'.
    pose proof (Hb u r Hur) as [? ?]. pose proof (Hb u' r' Hur') as [? ?].
    apply Hin in Hur as [_ ?]. apply Hin in Hur' as [_ ?].
    by apply rankedBefore_exact.
Qed.

End LeaderboardClaims.

Lemma mapOrder_perm V (m : gmap string V) : mapOrder V m ≡ₚ map_to_list m.
Proof. reflexivity. Qed.

Lemma C4_leaderboard_ranking_witness :
  let db := mkDB {[ "alice" := mkRow 5 2; "bob" := mkRow 10 4;
                    "dan" := mkRow 7 0 ]} [] in
  ∃ rows,
    sendLeaderboard noFaults mapOrder db
    = [Leaderboard (boardLines noFaults 1 rows)]
    ∧ line_username <$> boardLines noFaults 1 rows = rows.*1
    ∧ NoDup rows.*1
    ∧ (∀ u r, (u, r) ∈ rows
              ↔ table db !! u = Some r ∧ 0 < col_days_played r)
    ∧ StronglySorted rankedBefore rows
    ∧ StronglySorted exactBefore rows.
Proof.
  intros db.
  destruct (C4_leaderboard_ranking mapOrder mapOrder_perm db)
    as (rows & Hsend & Hnames & Hnd & Hin & Hkey & Hexact).
  exists rows. do 5 (split; [assumption|]).
  apply Hexact. intros u r Hur. apply Hin in Hur as [Hl _].
  unfold db in Hl. cbn [table] in Hl.
  apply lookup_insert_Some in Hl as [[_ <-]|[_ Hl]]; [simpl; lia|].
  apply lookup_insert_Some in Hl as [[_ <-]|[_ Hl]]; [simpl; lia|].
  apply lookup_singleton_Some in Hl as [_ <-]. simpl; lia.
Defined.

(** C4, counterexample: from the empty ledger, c scores 9007199254740995
    on two days, and on the third day c scores 9007199254740996 and a
    scores 9007199254740995.  The average of a, 9007199254740995, is less
    than that of c, 27021597764222986 / 3; the doubles of the query are
    9007199254740996 for a and 9007199254740994 for c, and the leaderboard
    that is sent lists c first. *)
Lemma C4_exact_order_inverted :
  let m := "9007199254740995/6 @c" in
  let db1 := (processWordleResultsMessage noFaults "carol" mapOrder m
                (mkDB ∅ [])).1 in
  let db2 := (processWordleResultsMessage noFaults "carol" mapOrder m db1).1 in
  let out := processWordleResultsMessage noFaults "carol" mapOrder
               (twoLines "9007199254740996/6 @c" "9007199254740995/6 @a")
               db2 in
  let a := mkRow 9007199254740995 1 in
  let c := mkRow 27021597764222986 3 in
  table out.1 = {[ "a" := a; "c" := c ]}
  ∧ (∃ lines, out.2 = [Acknowledgement; Leaderboard lines]
              ∧ line_username <$> lines = ["c"; "a"])
  ∧ QArith_base.Qcompare (exactAverage a) (exactAverage c) = Lt
  ∧ averageKey a = Z2SF 9007199254740996
  ∧ averageKey c = Z2SF 9007199254740994
  ∧ ¬ exactBefore ("c", c) ("a", a).
Proof.
  cbv zeta. split; [by vm_compute|]. split.
  { eexists. split; [vm_compute; reflexivity|]. by vm_compute. }
  split; [by vm_compute|]. split; [by vm_compute|]. split; [by vm_compute|].
  intros H. vm_compute in H. exact H.
Qed.

(** The leaderboard of a small ledger: the ties of the average 2.5 go to the
    player with more days, then to the smaller identifier; dan, with no day
    played, is not listed. *)
Example leaderboard_example :
  (leaderboardRows mapOrder
     {[ "alice" := mkRow 5 2; "bob" := mkRow 10 4; "carol" := mkRow 5 2;
        "dan" := mkRow 7 0; "eve" := mkRow 1 3 ]}).*1
  = ["eve"; "bob"; "alice"; "carol"].
Proof. vm_compute. reflexivity. Qed.

(** * The scoring engine *)

Section ScoringFacts.

Variable F : Faults.
Variable excludedUser : string.
Variable rangeOf : ∀ V : Type, gmap string V → list (string * V).
Hypothesis rangeOf_perm : ∀ V (m : gmap string V), rangeOf V m ≡ₚ map_to_list m.

Lemma runStmt_other q t u : u ≠ stmt_user q → runStmt q t !! u = t !! u.
Proof.
  intros Hne. destruct q as [v s d|s d v]; simpl in *;
    destruct (t !! v); auto; by rewrite lookup_insert_ne.
Qed.

Lemma updateCumulativeScore_table u s b db v :
  table (updateCumulativeScore F u s b db) !! v
  = if decide (v = u) then rowAfterCall F u s b (table db !! u)
    else table db !! v.
Proof.
  unfold updateCumulativeScore, QueryRow, rowAfterCall, Exec.
  destruct (row_query_fails F u); simpl.
  { destruct (decide (v = u)); by subst. }
  destruct (table db !! u) as [r|] eqn:Hr; simpl;
    destruct (exec_fails F u); simpl; rewrite ?Hr;
    destruct (decide (v = u)); subst;
    rewrite ?lookup_insert_eq, ?lookup_insert_ne; auto.
Qed.

Lemma updateCumulativeScore_issued u s b db :
  issued (updateCumulativeScore F u s b db)
  = issued db ++ stmtsOfCall F u s b (table db !! u).
Proof.
  unfold updateCumulativeScore, QueryRow, stmtsOfCall, Exec.
  destruct (row_query_fails F u); simpl; [by rewrite app_nil_r|].
  destruct (table db !! u); reflexivity.
Qed.

Lemma runCalls_table_notin cs : ∀ db v,
  v ∉ cs.*1 → table (runCalls F cs db) !! v = table db !! v.
Proof.
  induction cs as [|[u [s b]] cs IH]; intros db v Hv; [done|].
  simpl in *. apply not_elem_of_cons in Hv as [Hne Hv].
  rewrite IH by done. rewrite updateCumulativeScore_table.
  by rewrite decide_False.
Qed.

Lemma runCalls_table_in cs : ∀ db u s b,
  NoDup cs.*1 → (u, (s, b)) ∈ cs →
  table (runCalls F cs db) !! u = rowAfterCall F u s b (table db !! u).
Proof.
  induction cs as [|[u' [s' b']] cs IH]; intros db u s b Hnd Hin.
  { by apply elem_of_nil in Hin. }
  simpl in *. apply NoDup_cons in Hnd as [Hnotin Hnd].
  apply elem_of_cons in Hin as [Heq|Hin].
  - simplify_eq. rewrite runCalls_table_notin by done.
    rewrite updateCumulativeScore_table. by rewrite decide_True.
  - assert (u ≠ u').
    { intros ->. apply Hnotin. apply list_elem_of_fmap. by exists (u', (s, b)). }
    rewrite (IH _ u s b) by done.
    rewrite updateCumulativeScore_table. by rewrite decide_False.
Qed.

Lemma runCalls_issued cs : ∀ db,
  NoDup cs.*1 →
  issued (runCalls F cs db)
  = issued db ++ concat (map (fun c : Call => stmtsOfCall F c.1 c.2.1 c.2.2 (table db !! c.1)) cs).
Proof.
  induction cs as [|[u [s b]] cs IH]; intros db Hnd.
  { simpl. by rewrite app_nil_r. }
  rewrite fmap_cons in Hnd. apply NoDup_cons in Hnd as [Hnotin Hnd].
  change (runCalls F ((u, (s, b)) :: cs) db)
    with (runCalls F cs (updateCumulativeScore F u s b db)).
  rewrite IH by done. rewrite updateCumulativeScore_issued.
  rewrite <- app_assoc. simpl. do 3 f_equal.
  apply map_ext_in. intros [v [s' b']] Hin. simpl.
  rewrite updateCumulativeScore_table. rewrite decide_False; [done|].
  intros ->. apply Hnotin. apply list_elem_of_fmap.
  exists (u, (s', b')). split; [done|]. by apply list_elem_of_In.
Qed.

Lemma rangeOf_NoDup V (m : gmap string V) : NoDup (rangeOf V m).*1.
Proof. rewrite rangeOf_perm. apply NoDup_fst_map_to_list. Qed.

Lemma rangeOf_elem V (m : gmap string V) u v :
  (u, v) ∈ rangeOf V m ↔ m !! u = Some v.
Proof. rewrite rangeOf_perm. apply elem_of_map_to_list. Qed.

Lemma rangeOf_key V (m : gmap string V) u :
  u ∈ (rangeOf V m).*1 ↔ is_Some (m !! u).
Proof.
  rewrite list_elem_of_fmap. split.
  - intros [[u' v] [-> Hin]]. apply rangeOf_elem in Hin. by exists v.
  - intros [v Hv]. exists (u, v). split; [done|]. by apply rangeOf_elem.
Qed.

Lemma applyDaily_fst dailyUsers db dbUsers :
  (applyDaily F rangeOf dailyUsers (db, dbUsers)).1
  = runCalls F (dailyCalls rangeOf dailyUsers) db.
Proof.
  unfold applyDaily, dailyCalls, runCalls.
  generalize (rangeOf Z dailyUsers). intros l. revert db dbUsers.
  induction l as [|[u s] l IH]; intros db dbUsers; [done|].
  simpl. apply IH.
Qed.

Lemma applyDaily_snd dailyUsers db dbUsers u :
  (applyDaily F rangeOf dailyUsers (db, dbUsers)).2 !! u
  = match dailyUsers !! u with
    | Some _ => Some false
    | None => dbUsers !! u
    end.
Proof.
  unfold applyDaily.
  assert (Hl : ∀ l (st : DB * gmap string bool),
    (foldl (fun '(db, dbUsers) '(user, score) =>
              (updateCumulativeScore F user score true db,
               <[user := false]> dbUsers)) st l).2 !! u
    = if bool_decide (u ∈ l.*1) then Some false else st.2 !! u).
  { induction l as [|[u' s] l IH]; intros [db' du]; [done|].
    csimpl. rewrite IH. csimpl.
    destruct (decide (u = u')) as [->|Hne].
    - rewrite lookup_insert_eq. rewrite (bool_decide_eq_true_2 (u' ∈ u' :: _)).
      + by destruct (bool_decide _).
      + apply elem_of_cons; auto.
    - rewrite lookup_insert_ne by done.
      apply (f_equal (fun (b : bool) => if b then _ else _)).
      apply bool_decide_ext. rewrite elem_of_cons. tauto. }
  rewrite Hl. simpl.
  destruct (dailyUsers !! u) as [s|] eqn:Hs.
  - rewrite bool_decide_eq_true_2; [done|]. apply rangeOf_key. eauto.
  - rewrite bool_decide_eq_false_2; [done|]. rewrite rangeOf_key, Hs.
    by intros [? ?].
Qed.

Lemma scanUsers_lookup db u :
  scanUsers F rangeOf db !! u
  = if bool_decide (is_Some (table db !! u)) && negb (users_scan_fails F u)
    then Some true else None.
Proof.
  unfold scanUsers.
  assert (Hl : ∀ (l : list (string * Row)) (m : gmap string bool),
    foldl (fun dbUsers '(username, _) =>
             if users_scan_fails F username then dbUsers
             else <[username := true]> dbUsers) m l !! u
    = if bool_decide (u ∈ l.*1) && negb (users_scan_fails F u)
      then Some true else m !! u).
  { induction l as [|[u' r] l IH]; intros m; [done|].
    csimpl. rewrite IH.
    destruct (decide (u = u')) as [->|Hne].
    - rewrite (bool_decide_eq_true_2 (u' ∈ u' :: _)) by (apply elem_of_cons; auto).
      destruct (users_scan_fails F u') eqn:Hf; simpl.
      + by rewrite andb_false_r.
      + rewrite lookup_insert_eq. by destruct (_ && _).
    - assert (bool_decide (u ∈ u' :: l.*1) = bool_decide (u ∈ l.*1)) as ->.
      { apply bool_decide_ext. rewrite elem_of_cons. tauto. }
      destruct (_ && _); [done|].
      destruct (users_scan_fails F u'); [done|]. by rewrite lookup_insert_ne. }
  rewrite Hl, lookup_empty.
  apply (f_equal (fun (b : bool) => if b then _ else _)). f_equal.
  apply bool_decide_ext. apply rangeOf_key.
Qed.

Lemma applyPenalties_runCalls dbUsers db :
  applyPenalties F excludedUser rangeOf dbUsers db
  = runCalls F (penaltyCalls excludedUser rangeOf dbUsers) db.
Proof.
  unfold applyPenalties, penaltyCalls, runCalls.
  generalize (rangeOf bool dbUsers). intros l. revert db.
  induction l as [|[u b] l IH]; intros db; [done|].
  rewrite filter_cons. cbn [foldl fst].
  destruct (flag dbUsers u && negb (bool_decide (u = excludedUser))) eqn:Hc.
  - rewrite decide_True by done. cbn [map foldl fst snd]. apply IH.
  - rewrite decide_False by (by intros []). apply IH.
Qed.

Lemma runCalls_app cs1 cs2 db :
  runCalls F (cs1 ++ cs2) db = runCalls F cs2 (runCalls F cs1 db).
Proof. unfold runCalls. by rewrite foldl_app. Qed.

Lemma updateScoresBasedOnResults_runCalls dailyUsers db :
  users_query_fails F = false →
  updateScoresBasedOnResults F excludedUser rangeOf dailyUsers db
  = runCalls F (callsOf F excludedUser rangeOf dailyUsers db) db.
Proof.
  intros HF. unfold updateScoresBasedOnResults, callsOf. rewrite HF.
  rewrite runCalls_app.
  destruct (applyDaily F rangeOf dailyUsers (db, scanUsers F rangeOf db))
    as [db1 du1] eqn:Hd.
  rewrite applyPenalties_runCalls. simpl.
  f_equal. rewrite <- applyDaily_fst with (dbUsers := scanUsers F rangeOf db).
  by rewrite Hd.
Qed.

Lemma flag_after_daily dailyUsers db u :
  flag (applyDaily F rangeOf dailyUsers (db, scanUsers F rangeOf db)).2 u
    && negb (bool_decide (u = excludedUser))
  = penalised F excludedUser dailyUsers db u.
Proof.
  unfold flag, penalised. rewrite applyDaily_snd. cbn [snd].
  rewrite scanUsers_lookup.
  destruct (dailyUsers !! u) as [s|];
    repeat case_bool_decide; destruct (users_scan_fails F u);
    simpl; congruence.
Qed.

Lemma elem_of_dailyCalls dailyUsers c :
  c ∈ dailyCalls rangeOf dailyUsers
  ↔ ∃ s, c = (c.1, (s, true)) ∧ dailyUsers !! c.1 = Some s.
Proof.
  unfold dailyCalls. rewrite list_elem_of_fmap. split.
  - intros [[u s] [-> Hin]]. apply rangeOf_elem in Hin. by exists s.
  - intros [s [Hc Hs]]. exists (c.1, s). split; [done|]. by apply rangeOf_elem.
Qed.

Lemma elem_of_penaltyCalls dailyUsers db c :
  c ∈ penaltyCalls excludedUser rangeOf
        (applyDaily F rangeOf dailyUsers (db, scanUsers F rangeOf db)).2
  ↔ c = (c.1, (7, false)) ∧ penalised F excludedUser dailyUsers db c.1 = true.
Proof.
  unfold penaltyCalls. rewrite list_elem_of_fmap. split.
  - intros [[u b] [-> Hin]]. apply list_elem_of_filter in Hin as [Hp Hin].
    simpl in *. split; [done|]. rewrite <- flag_after_daily.
    by destruct (_ && _).
  - intros [Hc Hp]. rewrite <- flag_after_daily in Hp.
    destruct (flag _ c.1) eqn:Hfl; [|done]. pose proof Hfl as Hfl'.
    unfold flag in Hfl.
    destruct (_ !! c.1) as [b|] eqn:Hb; [|done]. simpl in Hfl. subst b.
    exists (c.1, true). split; [done|]. apply list_elem_of_filter. split.
    + simpl. rewrite Hfl'. by rewrite Hp.
    + by apply rangeOf_elem.
Qed.

Lemma callsOf_NoDup dailyUsers db :
  NoDup (callsOf F excludedUser rangeOf dailyUsers db).*1.
Proof.
  unfold callsOf. rewrite fmap_app. apply NoDup_app. split; [|split].
  - unfold dailyCalls. rewrite <- list_fmap_compose.
    apply (rangeOf_NoDup Z dailyUsers).
  - intros u Hu1 Hu2.
    apply list_elem_of_fmap in Hu1 as [c1 [-> Hc1]].
    apply list_elem_of_fmap in Hu2 as [c2 [Heq Hc2]].
    apply elem_of_dailyCalls in Hc1 as [s [_ Hs]].
    apply elem_of_penaltyCalls in Hc2 as [_ Hp].
    unfold penalised in Hp. rewrite <- Heq, Hs in Hp.
    rewrite (bool_decide_eq_false_2 (Some s = None)) in Hp by done.
    by rewrite andb_false_r in Hp.
  - unfold penaltyCalls. rewrite <- list_fmap_compose.
    set (l := rangeOf bool _).
    assert (Hnd : NoDup l.*1) by apply rangeOf_NoDup.
    revert Hnd. generalize l. clear l. intros l.
    induction l as [|[u b] l IH]; intros Hnd; [constructor|].
    rewrite fmap_cons in Hnd. apply NoDup_cons in Hnd as [Hnotin Hnd].
    rewrite filter_cons. destruct (decide _); [|by apply IH].
    rewrite fmap_cons. apply NoDup_cons. split; [|by apply IH].
    simpl. intros Hin. apply Hnotin.
    apply list_elem_of_fmap in Hin as [[u' b'] [Hu Hin]]. simpl in Hu. subst u'.
    apply list_elem_of_filter in Hin as [_ Hin].
    apply list_elem_of_fmap. by exists (u, b').
Qed.

Lemma updateScoresBasedOnResults_lookup dailyUsers db u :
  users_query_fails F = false →
  table (updateScoresBasedOnResults F excludedUser rangeOf dailyUsers db) !! u
  = match dailyUsers !! u with
    | Some s => rowAfterCall F u s true (table db !! u)
    | None =>
        if penalised F excludedUser dailyUsers db u
        then rowAfterCall F u 7 false (table db !! u)
        else table db !! u
    end.
Proof.
  intros HF. rewrite updateScoresBasedOnResults_runCalls by done.
  pose proof (callsOf_NoDup dailyUsers db) as Hnd.
  destruct (dailyUsers !! u) as [s|] eqn:Hs.
  - apply runCalls_table_in; [done|]. unfold callsOf.
    apply elem_of_app. left. apply elem_of_dailyCalls. by exists s.
  - destruct (penalised F excludedUser dailyUsers db u) eqn:Hp.
    + apply runCalls_table_in; [done|]. unfold callsOf.
      apply elem_of_app. right. by apply elem_of_penaltyCalls.
    + apply runCalls_table_notin. unfold callsOf. rewrite fmap_app.
      intros [Hin|Hin]%elem_of_app;
        apply list_elem_of_fmap in Hin as [c [-> Hc]].
      * apply elem_of_dailyCalls in Hc as [s [_ Hs']]. congruence.
      * apply elem_of_penaltyCalls in Hc as [_ Hp']. congruence.
Qed.

Lemma updateScoresBasedOnResults_issued dailyUsers db :
  users_query_fails F = false →
  issued (updateScoresBasedOnResults F excludedUser rangeOf dailyUsers db)
  = issued db
    ++ concat (map (fun c : Call =>
                      stmtsOfCall F c.1 c.2.1 c.2.2 (table db !! c.1))
                   (callsOf F excludedUser rangeOf dailyUsers db)).
Proof.
  intros HF. rewrite updateScoresBasedOnResults_runCalls by done.
  apply runCalls_issued, callsOf_NoDup.
Qed.

Lemma stmtsOfCall_user u s b o q :
  q ∈ stmtsOfCall F u s b o → stmt_user q = u.
Proof.
  unfold stmtsOfCall. destruct (row_query_fails F u).
  { by intros ?%elem_of_nil. }
  destruct o; intros ->%list_elem_of_singleton; done.
Qed.

Lemma stmts_NoDup (cs : list Call) (t : gmap string Row) :
  NoDup cs.*1 →
  NoDup (stmt_user <$>
           concat (map (fun c : Call => stmtsOfCall F c.1 c.2.1 c.2.2 (t !! c.1)) cs)).
Proof.
  induction cs as [|[u [s b]] cs IH]; intros Hnd; [constructor|].
  rewrite fmap_cons in Hnd. apply NoDup_cons in Hnd as [Hnotin Hnd].
  cbn [map concat fst snd]. rewrite fmap_app. apply NoDup_app.
  split; [|split].
  - unfold stmtsOfCall. destruct (row_query_fails F u); [constructor|].
    destruct (t !! u); apply NoDup_singleton.
  - intros v Hv1 Hv2.
    apply list_elem_of_fmap in Hv1 as [q1 [-> Hq1]].
    apply stmtsOfCall_user in Hq1. rewrite Hq1 in Hv2.
    apply Hnotin. simpl.
    apply list_elem_of_fmap in Hv2 as [q2 [Hu Hq2]].
    apply list_elem_of_In, in_concat in Hq2 as [qs [Hqs Hq2]].
    apply in_map_iff in Hqs as [c [<- Hc]].
    apply list_elem_of_In, stmtsOfCall_user in Hq2.
    apply list_elem_of_fmap. exists c. split; [congruence|].
    by apply list_elem_of_In.
  - by apply IH.
Qed.

End ScoringFacts.

Section ScoringClaims.

Variable F : Faults.
Variable excludedUser : string.
Variable rangeOf : ∀ V : Type, gmap string V → list (string * V).
Hypothesis rangeOf_perm : ∀ V (m : gmap string V), rangeOf V m ≡ₚ map_to_list m.

Lemma int_add_exact a b :
  minInt ≤ a + b ≤ maxInt → int_add a b = a + b.
Proof.
  unfold int_add, wrap, minInt, maxInt. intros H.
  rewrite Z.mod_small; lia.
Qed.

Lemma rowAfterCall_noFaults u s b o :
  rowAfterCall noFaults u s b o
  = Some (match o with
          | None => mkRow s (if b then 1 else 0)
          | Some r => mkRow (int_add (col_score r) s)
                            (if b then int_add (col_days_played r) 1
                             else col_days_played r)
          end).
Proof. unfold rowAfterCall. simpl. by destruct o. Qed.

Lemma penalised_noFaults dailyUsers db u :
  penalised noFaults excludedUser dailyUsers db u
  = bool_decide (is_Some (table db !! u))
    && bool_decide (dailyUsers !! u = None)
    && negb (bool_decide (u = excludedUser)).
Proof. unfold penalised. simpl. by rewrite andb_true_r. Qed.

Lemma updateScoresBasedOnResults_noFaults_lookup dailyUsers db u :
  table (updateScoresBasedOnResults noFaults excludedUser rangeOf
           dailyUsers db) !! u
  = match dailyUsers !! u, table db !! u with
    | Some s, None => Some (mkRow s 1)
    | Some s, Some r =>
        Some (mkRow (int_add (col_score r) s)
                    (int_add (col_days_played r) 1))
    | None, Some r =>
        if decide (u = excludedUser) then Some r
        else Some (mkRow (int_add (col_score r) 7) (col_days_played r))
    | None, None => None
    end.
Proof.
  rewrite updateScoresBasedOnResults_lookup by done.
  rewrite penalised_noFaults, !rowAfterCall_noFaults.
  destruct (dailyUsers !! u) as [s|] eqn:Hs.
  - by destruct (table db !! u).
  - rewrite (bool_decide_eq_true_2 (None = None)) by done.
    destruct (table db !! u) as [r|] eqn:Hr.
    + rewrite bool_decide_eq_true_2 by eauto. simpl.
      destruct (decide (u = excludedUser)).
      * by rewrite bool_decide_eq_true_2.
      * by rewrite bool_decide_eq_false_2.
    + rewrite bool_decide_eq_false_2; [done|]. by intros [? ?].
Qed.

(** C1: with no storage failure, the run is a full outer join of the ledger
    and the daily results.  A player of the daily results who has no row
    gets one with the score and one day; one who has a row gets the score
    added and one day more; a known player who is not in the daily results
    gets 7 added and the days unchanged, unless it is the excluded
    identifier, whose row is unchanged; nobody else gets a row.  ([int_add]
    is the [+] of Go.)  From alice (5, 2) and bob (10, 3), the daily result
    alice 1 leads to alice (6, 3) and bob (17, 3). *)
Theorem C1_full_outer_join dailyUsers db :
  (∀ u,
     table (updateScoresBasedOnResults noFaults excludedUser rangeOf
              dailyUsers db) !! u
     = match dailyUsers !! u, table db !! u with
       | Some s, None => Some (mkRow s 1)
       | Some s, Some r =>
           Some (mkRow (int_add (col_score r) s)
                       (int_add (col_days_played r) 1))
       | None, Some r =>
           if decide (u = excludedUser) then Some r
           else Some (mkRow (int_add (col_score r) 7) (col_days_played r))
       | None, None => None
       end)
  ∧ (excludedUser ≠ "bob" →
     table (updateScoresBasedOnResults noFaults excludedUser rangeOf
              {[ "alice" := 1 ]}
              (mkDB {[ "alice" := mkRow 5 2; "bob" := mkRow 10 3 ]} []))
     = {[ "alice" := mkRow 6 3; "bob" := mkRow 17 3 ]}).
Proof.
  split; [apply updateScoresBasedOnResults_noFaults_lookup|].
  intros Hbob. apply map_eq. intros u.
  rewrite updateScoresBasedOnResults_noFaults_lookup. cbn [table].
  destruct (decide (u = "alice")) as [->|Ha]; [done|].
  destruct (decide (u = "bob")) as [->|Hb].
  { destruct (decide ("bob" = excludedUser)); [congruence|done]. }
  rewrite lookup_singleton_ne by done.
  rewrite !lookup_insert_ne by done.
  by rewrite !lookup_singleton_ne by done.
Qed.

(** C5: whatever the ledger, the daily results and the storage failures,
    when the excluded identifier is not in the daily results the run leaves
    its row as it is (its score and its days, if it has a row) and issues no
    statement that writes it. *)
Theorem C5_excluded_user_never_penalised dailyUsers db :
  dailyUsers !! excludedUser = None →
  table (updateScoresBasedOnResults F excludedUser rangeOf dailyUsers db)
    !! excludedUser
  = table db !! excludedUser
  ∧ ∃ new,
      issued (updateScoresBasedOnResults F excludedUser rangeOf dailyUsers db)
      = issued db ++ new
      ∧ ∀ q, q ∈ new → stmt_user q ≠ excludedUser.
Proof.
  intros Hd. destruct (users_query_fails F) eqn:HF.
  { unfold updateScoresBasedOnResults. rewrite HF. split; [done|].
    exists []. split; [by rewrite app_nil_r|]. by intros q ?%elem_of_nil. }
  split.
  - rewrite updateScoresBasedOnResults_lookup by done. rewrite Hd.
    unfold penalised. rewrite (bool_decide_eq_true_2 (excludedUser = _)) by done.
    by rewrite andb_false_r.
  - eexists. split; [by apply updateScoresBasedOnResults_issued|].
    intros q Hq.
    apply list_elem_of_In, in_concat in Hq as [qs [Hqs Hq]].
    apply in_map_iff in Hqs as [c [<- Hc]].
    apply list_elem_of_In, stmtsOfCall_user in Hq. rewrite Hq.
    apply list_elem_of_In in Hc. unfold callsOf in Hc.
    apply elem_of_app in Hc as [Hc|Hc].
    + apply elem_of_dailyCalls in Hc as [s [_ Hs]]; [|done].
      intros Heq. rewrite Heq in Hs. congruence.
    + apply elem_of_penaltyCalls in Hc as [_ Hp]; [|done]. unfold penalised in Hp.
      intros Heq. rewrite (bool_decide_eq_true_2 (c.1 = _)) in Hp by done.
      by rewrite andb_false_r in Hp.
Qed.

Lemma rowAfterCall_monotone u s b r :
  0 ≤ s →
  minInt ≤ col_score r → col_score r + s ≤ maxInt →
  minInt ≤ col_days_played r → (b = true → col_days_played r + 1 ≤ maxInt) →
  ∃ r', rowAfterCall F u s b (Some r) = Some r'
        ∧ col_score r ≤ col_score r'
        ∧ col_days_played r ≤ col_days_played r'.
Proof.
  intros Hs Hlo Hhi Hdlo Hdhi. unfold rowAfterCall.
  destruct (_ || _).
  { exists r. split; [done|lia]. }
  eexists. split; [done|]. simpl.
  rewrite int_add_exact by lia. split; [lia|].
  destruct b; [|lia]. rewrite int_add_exact; [lia|]. specialize (Hdhi eq_refl). lia.
Qed.

(** C7, amended: a call of [updateCumulativeScore] that adds a score
    [0 ≤ s] (a daily score or the penalty 7) decreases no stored score and
    no stored day count, for the player of the call and for every other
    one, as long as the additions stay within [int]: the score plus [s], and
    the days plus one when the day is counted, do not exceed [maxInt]. *)
Theorem C7_monotone_without_overflow u s b db v r :
  table db !! v = Some r →
  0 ≤ s →
  minInt ≤ col_score r → col_score r + s ≤ maxInt →
  minInt ≤ col_days_played r → (b = true → col_days_played r + 1 ≤ maxInt) →
  ∃ r', table (updateCumulativeScore F u s b db) !! v = Some r'
        ∧ col_score r ≤ col_score r'
        ∧ col_days_played r ≤ col_days_played r'.
Proof.
  intros Hv Hs Hlo Hhi Hdlo Hdhi. rewrite updateCumulativeScore_table.
  destruct (decide (v = u)) as [->|Hne].
  - rewrite Hv. by apply rowAfterCall_monotone.
  - exists r. split; [done|lia].
Qed.

(** C8: the statements that one run hands to [db.Exec] write pairwise
    different players.  The statement for a player of the daily results is
    the scored update (the insertion with one day, or the update with the
    score added and one day more); the statement for any other player is
    the penalty (7 added, the days unchanged) on an existing row. *)
Theorem C8_one_write_per_player dailyUsers db :
  ∃ new,
    issued (updateScoresBasedOnResults F excludedUser rangeOf dailyUsers db)
    = issued db ++ new
    ∧ NoDup (stmt_user <$> new)
    ∧ ∀ q, q ∈ new →
        match dailyUsers !! stmt_user q with
        | Some s =>
            q = match table db !! stmt_user q with
                | None => INSERT (stmt_user q) s 1
                | Some r =>
                    UPDATE (int_add (col_score r) s)
                           (int_add (col_days_played r) 1) (stmt_user q)
                end
        | None =>
            stmt_user q ≠ excludedUser
            ∧ ∃ r, table db !! stmt_user q = Some r
                   ∧ q = UPDATE (int_add (col_score r) 7) (col_days_played r)
                                (stmt_user q)
        end.
Proof.
  destruct (users_query_fails F) eqn:HF.
  { unfold updateScoresBasedOnResults. rewrite HF. exists [].
    split; [by rewrite app_nil_r|]. split; [constructor|].
    by intros q ?%elem_of_nil. }
  eexists. split; [by apply updateScoresBasedOnResults_issued|].
  split; [by apply stmts_NoDup, callsOf_NoDup|].
  intros q Hq.
  apply list_elem_of_In, in_concat in Hq as [qs [Hqs Hq]].
  apply in_map_iff in Hqs as [c [<- Hc]].
  apply list_elem_of_In in Hq. pose proof (stmtsOfCall_user _ _ _ _ _ _ Hq) as Hu.
  rewrite Hu. apply list_elem_of_In in Hc. unfold callsOf in Hc.
  apply elem_of_app in Hc as [Hc|Hc].
  - apply elem_of_dailyCalls in Hc as [s [Hc Hs]]; [|done].
    rewrite Hs. rewrite Hc in Hq. cbn [fst snd] in Hq.
    unfold stmtsOfCall in Hq. destruct (row_query_fails F c.1).
    { by apply elem_of_nil in Hq. }
    destruct (table db !! c.1); by apply list_elem_of_singleton in Hq.
  - apply elem_of_penaltyCalls in Hc as [Hc Hp]; [|done].
    unfold penalised in Hp.
    apply andb_prop in Hp as [Hp Hex]. apply andb_prop in Hp as [Hp Hd].
    apply andb_prop in Hp as [Hk _].
    apply bool_decide_eq_true in Hd. apply bool_decide_eq_true in Hk.
    apply negb_true_iff, bool_decide_eq_false in Hex.
    rewrite Hd. split; [done|]. destruct Hk as [r Hr]. exists r.
    split; [done|]. rewrite Hc in Hq. cbn [fst snd] in Hq.
    unfold stmtsOfCall in Hq. destruct (row_query_fails F c.1).
    { by apply elem_of_nil in Hq. }
    rewrite Hr in Hq. by apply list_elem_of_singleton in Hq.
Qed.

(** C2, amended: when the query that enumerates the known players fails,
    [updateScoresBasedOnResults] returns at once: the ledger is unchanged
    and no statement is issued, so neither the daily results nor any
    penalty are applied.  The run is not halted: the acknowledgement is
    sent and the leaderboard is made from the unchanged ledger. *)
Theorem C2_users_query_failure_skips_scoring message dailyUsers db :
  users_query_fails F = true →
  updateScoresBasedOnResults F excludedUser rangeOf dailyUsers db = db
  ∧ processWordleResultsMessage F excludedUser rangeOf message db
    = (db, Acknowledgement :: sendLeaderboard F rangeOf db).
Proof.
  intros HF. unfold processWordleResultsMessage, updateScoresBasedOnResults.
  by rewrite HF.
Qed.

(** When only the scan of a row fails, the run goes on with a smaller set of
    known players: the daily results are applied, and the player of that
    row, if absent from them, gets no penalty. *)
Lemma users_scan_failure_degrades dailyUsers db u :
  users_query_fails F = false →
  (∀ s, dailyUsers !! u = Some s →
        table (updateScoresBasedOnResults F excludedUser rangeOf dailyUsers db)
          !! u
        = rowAfterCall F u s true (table db !! u))
  ∧ (users_scan_fails F u = true → dailyUsers !! u = None →
     table (updateScoresBasedOnResults F excludedUser rangeOf dailyUsers db)
       !! u
     = table db !! u).
Proof.
  intros HF. split.
  - intros s Hs. rewrite updateScoresBasedOnResults_lookup by done.
    by rewrite Hs.
  - intros Hf Hd. rewrite updateScoresBasedOnResults_lookup by done.
    rewrite Hd. unfold penalised. rewrite Hf. simpl.
    by rewrite andb_false_r.
Qed.

(** A run decreases no stored value either, under the same proviso on every
    addition it may make. *)
Lemma updateScoresBasedOnResults_monotone dailyUsers db u r :
  table db !! u = Some r →
  (∀ s, dailyUsers !! u = Some s → 0 ≤ s ∧ col_score r + s ≤ maxInt) →
  minInt ≤ col_score r → col_score r + 7 ≤ maxInt →
  minInt ≤ col_days_played r → col_days_played r + 1 ≤ maxInt →
  ∃ r', table (updateScoresBasedOnResults F excludedUser rangeOf
                 dailyUsers db) !! u = Some r'
        ∧ col_score r ≤ col_score r'
        ∧ col_days_played r ≤ col_days_played r'.
Proof.
  intros Hr Hd Hlo Hhi Hdlo Hdhi.
  destruct (users_query_fails F) eqn:HF.
  { unfold updateScoresBasedOnResults. rewrite HF. exists r.
    split; [done|lia]. }
  rewrite updateScoresBasedOnResults_lookup by done. rewrite Hr.
  destruct (dailyUsers !! u) as [s|] eqn:Hs.
  - destruct (Hd s eq_refl). by apply rowAfterCall_monotone.
  - destruct (penalised _ _ _ _ _).
    + apply rowAfterCall_monotone; (done || lia).
    + exists r. split; [done|lia].
Qed.

(** C10: the mentions "@<>" and "@@" normalise to the empty string, which
    becomes a player of the daily result; with no storage failure the run
    gives that player a row as it does for any other: the score and one day
    if there was none, the score added and one day more otherwise. *)
Theorem C10_empty_identifier db :
  extract "3/6 @<>" = {[ "" := 3 ]}
  ∧ extract "3/6 @@" = {[ "" := 3 ]}
  ∧ table (updateScoresBasedOnResults noFaults excludedUser rangeOf
             (extract "3/6 @<>") db) !! ""
    = Some (match table db !! "" with
            | None => mkRow 3 1
            | Some r => mkRow (int_add (col_score r) 3)
                              (int_add (col_days_played r) 1)
            end).
Proof.
  assert (He : extract "3/6 @<>" = {[ "" := 3 ]}) by (by vm_compute).
  split; [done|]. split; [by vm_compute|].
  rewrite updateScoresBasedOnResults_noFaults_lookup, He.
  rewrite lookup_singleton_eq. by destruct (table db !! "").
Qed.

(** The ledger state of the counterexample to C7 arises from the empty
    ledger: a results message may carry any run of digits. *)
Lemma overflow_is_reachable :
  excludedUser ≠ "alice" →
  let db1 := (processWordleResultsMessage noFaults excludedUser rangeOf
                "9223372036854775807/6 @alice" (mkDB ∅ [])).1 in
  let db2 := (processWordleResultsMessage noFaults excludedUser rangeOf
                "1/6 @bob" db1).1 in
  table db1 !! "alice" = Some (mkRow maxInt 1)
  ∧ table db2 !! "alice" = Some (mkRow (minInt + 6) 1).
Proof.
  intros Hex. cbn zeta. unfold processWordleResultsMessage. cbn [fst].
  assert (H1 : extract "9223372036854775807/6 @alice" = {[ "alice" := maxInt ]})
    by (by vm_compute).
  assert (H2 : extract "1/6 @bob" = {[ "bob" := 1 ]}) by (by vm_compute).
  rewrite H1, H2.
  assert (Ha : table (updateScoresBasedOnResults noFaults excludedUser rangeOf
                        {[ "alice" := maxInt ]} (mkDB ∅ [])) !! "alice"
               = Some (mkRow maxInt 1)).
  { rewrite updateScoresBasedOnResults_noFaults_lookup.
    by rewrite lookup_singleton_eq. }
  split; [done|].
  rewrite updateScoresBasedOnResults_noFaults_lookup, Ha.
  rewrite lookup_singleton_ne by done. by rewrite decide_False.
Qed.

End ScoringClaims.

(** ** Instances of the statements *)

Lemma C1_full_outer_join_witness :
  "carol" ≠ "bob"
  ∧ table (updateScoresBasedOnResults noFaults "carol" mapOrder
             {[ "alice" := 1 ]}
             (mkDB {[ "alice" := mkRow 5 2; "bob" := mkRow 10 3 ]} []))
    = {[ "alice" := mkRow 6 3; "bob" := mkRow 17 3 ]}.
Proof.
  split; [discriminate|].
  apply (proj2 (C1_full_outer_join "carol" mapOrder mapOrder_perm
                  ∅ (mkDB ∅ []))).
  discriminate.
Defined.

(** C2, counterexample: the ledger is empty, the daily result is alice 2
    and the enumeration fails.  Were the results applied to an empty set of
    known players, as in the run where nothing fails, alice would have the
    row (2, 1); she has none. *)
Lemma C2_daily_results_dropped :
  let F := mkFaults true (fun _ => false) (fun _ => false) (fun _ => false)
                    false (fun _ => false) in
  table (updateScoresBasedOnResults F "carol" mapOrder
           {[ "alice" := 2 ]} (mkDB ∅ [])) !! "alice" = None
  ∧ table (updateScoresBasedOnResults noFaults "carol" mapOrder
             {[ "alice" := 2 ]} (mkDB ∅ [])) !! "alice" = Some (mkRow 2 1).
Proof. split; by vm_compute. Qed.

Lemma C2_users_query_failure_skips_scoring_witness :
  let F := mkFaults true (fun _ => false) (fun _ => false) (fun _ => false)
                    false (fun _ => false) in
  users_query_fails F = true
  ∧ updateScoresBasedOnResults F "carol" mapOrder {[ "alice" := 2 ]}
      (mkDB ∅ []) = mkDB ∅ [].
Proof.
  split; [reflexivity|].
  apply (proj1 (C2_users_query_failure_skips_scoring
                  (mkFaults true (fun _ => false) (fun _ => false)
                     (fun _ => false) false (fun _ => false))
                  "carol" mapOrder "1/6 @alice" {[ "alice" := 2 ]}
                  (mkDB ∅ []) eq_refl)).
Defined.

Lemma C5_excluded_user_never_penalised_witness :
  ({[ "alice" := 1 ]} : gmap string Z) !! "carol" = None
  ∧ table (updateScoresBasedOnResults noFaults "carol" mapOrder
             {[ "alice" := 1 ]}
             (mkDB {[ "alice" := mkRow 5 2; "carol" := mkRow 10 3 ]} []))
      !! "carol"
    = table (mkDB {[ "alice" := mkRow 5 2; "carol" := mkRow 10 3 ]} [])
        !! "carol".
Proof.
  assert (H : ({[ "alice" := 1 ]} : gmap string Z) !! "carol" = None)
    by (vm_compute; reflexivity).
  split; [exact H|].
  apply (proj1 (C5_excluded_user_never_penalised noFaults "carol" mapOrder
                  mapOrder_perm {[ "alice" := 1 ]}
                  (mkDB {[ "alice" := mkRow 5 2; "carol" := mkRow 10 3 ]} [])
                  H)).
Defined.

(** C7, counterexample: alice has the score [maxInt]; the penalty of 7 wraps
    it around to [minInt + 6], which is less. *)
Lemma C7_score_decreases_on_overflow :
  let db := mkDB {[ "alice" := mkRow maxInt 1 ]} [] in
  table db !! "alice" = Some (mkRow maxInt 1)
  ∧ table (updateCumulativeScore noFaults "alice" 7 false db) !! "alice"
    = Some (mkRow (minInt + 6) 1)
  ∧ minInt + 6 < maxInt.
Proof. repeat split; by vm_compute. Qed.

Lemma C7_monotone_without_overflow_witness :
  ∃ r', table (updateCumulativeScore noFaults "bob" 7 false
                 (mkDB {[ "bob" := mkRow 10 3 ]} [])) !! "bob" = Some r'
        ∧ 10 ≤ col_score r' ∧ 3 ≤ col_days_played r'.
Proof.
  apply (C7_monotone_without_overflow noFaults "bob" 7 false
           (mkDB {[ "bob" := mkRow 10 3 ]} []) "bob" (mkRow 10 3)).
  - reflexivity.
  - lia.
  - vm_compute. discriminate.
  - vm_compute. discriminate.
  - vm_compute. discriminate.
  - discriminate.
Defined.

Lemma C8_one_write_per_player_witness :
  ∃ new,
    issued (updateScoresBasedOnResults noFaults "carol" mapOrder
              {[ "alice" := 1 ]}
              (mkDB {[ "alice" := mkRow 5 2; "bob" := mkRow 10 3 ]} []))
    = [] ++ new
    ∧ NoDup (stmt_user <$> new).
Proof.
  destruct (C8_one_write_per_player noFaults "carol" mapOrder mapOrder_perm
              {[ "alice" := 1 ]}
              (mkDB {[ "alice" := mkRow 5 2; "bob" := mkRow 10 3 ]} []))
    as (new & Hnew & Hnd & _).
  exists new. split; [exact Hnew|exact Hnd].
Defined.

Lemma C10_empty_identifier_witness :
  let db := mkDB {[ "" := mkRow 4 1 ]} [] in
  table (updateScoresBasedOnResults noFaults "carol" mapOrder
           (extract "3/6 @<>") db) !! ""
  = Some (match table db !! "" with
          | None => mkRow 3 1
          | Some r => mkRow (int_add (col_score r) 3)
                            (int_add (col_days_played r) 1)
          end).
Proof.
  exact (proj2 (proj2 (C10_empty_identifier "carol" mapOrder mapOrder_perm
                         (mkDB {[ "" := mkRow 4 1 ]} [])))).
Defined.

(** * Further properties of the text extractor *)

Section ExtractorExtras.

Lemma processLines_some lines u : ∀ d,
  is_Some (foldl processLine d lines !! u)
  ↔ is_Some (d !! u) ∨ ∃ line, line ∈ lines ∧ assigns line u.
Proof.
  induction lines as [|l ls IH]; intros d.
  { simpl. split; [auto|]. intros [H|(line & Hin & _)]; [done|].
    by apply elem_of_nil in Hin. }
  simpl. rewrite IH, processLine_lookup. split.
  - intros [H|(line & Hin & Ha)].
    + case_bool_decide as Hl; [|by left].
      right. exists l. split; [apply elem_of_cons; auto|done].
    + right. exists line. split; [apply elem_of_cons; auto|done].
  - intros [H|(line & Hin & Ha)].
    + left. by case_bool_decide.
    + apply elem_of_cons in Hin as [->|Hin].
      * left. by rewrite bool_decide_eq_true_2.
      * right. by exists line.
Qed.

(** X1: a player is in the daily result exactly when some line of the
    message has a score match and mentions the player.  So a line without
    a score match, and a line with a score match and no mention, add
    nobody. *)
Theorem X1_extract_player_iff message u :
  is_Some (extract message !! u)
  ↔ ∃ line, line ∈ Split (B message) LF
            ∧ scoreRegex_FindString line ≠ [] ∧ u ∈ usersOf line.
Proof.
  unfold extract. rewrite processLines_some, lookup_empty. split.
  - intros [[? ?]|H]; [done|exact H].
  - auto.
Qed.

Lemma processLines_over lines u : ∀ d,
  foldl processLine d lines !! u
  = match foldl processLine ∅ lines !! u with
    | Some s => Some s
    | None => d !! u
    end.
Proof.
  induction lines as [|l ls IH]; intros d; [done|].
  simpl. rewrite IH, (IH (processLine ∅ l)), !processLine_lookup.
  rewrite lookup_empty.
  destruct (foldl processLine ∅ ls !! u); [done|]. by case_bool_decide.
Qed.

Lemma B_app s1 s2 : B (s1 +:+ s2) = B s1 ++ B s2.
Proof.
  unfold B. induction s1 as [|c s1 IH]; [done|]. simpl. by rewrite IH.
Qed.

Lemma Split_nonempty s sep : Split s sep ≠ [].
Proof.
  induction s as [|c r IH]; simpl; [done|].
  destruct (Ascii.eqb c sep); [done|]. by destruct (Split r sep).
Qed.

Lemma Split_app a b sep :
  Split (a ++ sep :: b) sep = Split a sep ++ Split b sep.
Proof.
  induction a as [|c a IH]; simpl.
  - by rewrite Ascii.eqb_refl.
  - destruct (Ascii.eqb c sep); [by rewrite IH|].
    rewrite IH. pose proof (Split_nonempty a sep).
    by destruct (Split a sep).
Qed.

(** X2: the daily result of a message that is [m1], a line feed and [m2]
    is the daily result of [m2], completed by that of [m1] for the players
    that [m2] does not score. *)
Theorem X2_extract_twoLines m1 m2 :
  extract (twoLines m1 m2) = extract m2 ∪ extract m1.
Proof.
  apply map_eq. intros u. unfold extract, twoLines.
  rewrite B_app. change (B (String LF "" +:+ m2)) with (LF :: B m2).
  rewrite Split_app, foldl_app, processLines_over.
  rewrite lookup_union.
  destruct (foldl processLine ∅ (Split (B m2) LF) !! u),
    (foldl processLine ∅ (Split (B m1) LF) !! u); done.
Qed.

Lemma plain_code c :
  isPlain c = true →
  (code c < 128)%N ∧ isSpace1 c = false ∧ isDelimiter c = false.
Proof.
  unfold isPlain. rewrite !andb_true_iff, !negb_true_iff, N.ltb_lt. tauto.
Qed.

Lemma TrimLeftSpace_ascii c r :
  (code c < 128)%N → isSpace1 c = false → TrimLeftSpace (c :: r) = c :: r.
Proof.
  intros Hc Hs. simpl. rewrite Hs.
  destruct r as [|b r]; [done|].
  assert (isSpace2 c b = false) as ->.
  { unfold isSpace2. apply andb_false_iff. left. apply N.eqb_neq. lia. }
  destruct r as [|a r]; [done|].
  assert (isSpace3 c b a = false) as ->; [|done].
  unfold isSpace3.
  assert (Hn : ∀ n, (128 ≤ n)%N → (code c =? n)%N = false).
  { intros n Hn. apply N.eqb_neq. lia. }
  by rewrite !Hn by lia.
Qed.

Lemma TrimRightSpace_rev_ascii c r :
  (code c < 128)%N → isSpace1 c = false →
  TrimRightSpace_rev (c :: r) = c :: r.
Proof.
  intros Hc Hs. simpl. rewrite Hs.
  destruct r as [|b r]; [done|].
  assert (isSpace2 b c = false) as ->.
  { unfold isSpace2. apply andb_false_iff. right.
    apply byte_in_ge; [|done]. repeat constructor; lia. }
  destruct r as [|a r]; [done|].
  assert (isSpace3 a b c = false) as ->; [|done].
  unfold isSpace3.
  assert (Hn : ∀ n, (128 ≤ n)%N → (code c =? n)%N = false).
  { intros n Hn. apply N.eqb_neq. lia. }
  rewrite !Hn by lia.
  assert ((128 <=? code c)%N = false) as -> by (apply N.leb_gt; lia).
  rewrite byte_in_ge; [|repeat constructor; lia|done].
  by rewrite !andb_false_r.
Qed.

Lemma edge_ascii c :
  isPlain c = true ∨ isDelimiter c = true →
  (code c < 128)%N ∧ isSpace1 c = false.
Proof.
  intros [H|H].
  - apply plain_code in H. tauto.
  - by apply delimiter_code.
Qed.

Lemma TrimSpace_edges c s d :
  (isPlain c = true ∨ isDelimiter c = true) →
  (isPlain d = true ∨ isDelimiter d = true) →
  TrimSpace (c :: s ++ [d]) = c :: s ++ [d].
Proof.
  intros [Hc Hcs]%edge_ascii [Hd Hds]%edge_ascii. unfold TrimSpace.
  rewrite TrimLeftSpace_ascii by done.
  change (c :: s ++ [d]) with ((c :: s) ++ [d]).
  rewrite rev_unit, TrimRightSpace_rev_ascii by done.
  by rewrite <- rev_unit, rev_involutive.
Qed.

Lemma TrimLeft_set_strip cut ds c r :
  forallb cut ds = true → cut c = false →
  TrimLeft_set cut (ds ++ c :: r) = c :: r.
Proof.
  intros Hds Hc. induction ds as [|d ds IH]; simpl in *.
  - by rewrite Hc.
  - apply andb_true_iff in Hds as [-> Hds]. by apply IH.
Qed.

Lemma forallb_rev {A} (f : A → bool) l :
  forallb f l = true → forallb f (rev l) = true.
Proof.
  rewrite !forallb_forall. intros H x Hx%in_rev. by apply H.
Qed.

Lemma Trim_delimiters before name after :
  forallb isDelimiter before = true → forallb isDelimiter after = true →
  name ≠ [] →
  (∀ c, head name = Some c → isDelimiter c = false) →
  (∀ c, last name = Some c → isDelimiter c = false) →
  Trim (before ++ name ++ after) (B "@<>") = name.
Proof.
  intros Hb Ha Hne Hhd Hlast. unfold Trim. fold isDelimiter.
  change (fun c => existsb (Ascii.eqb c) (B "@<>")) with isDelimiter.
  destruct name as [|c name]; [done|].
  destruct (rev (c :: name)) as [|d erom] eqn:Hrev.
  { apply (f_equal length) in Hrev. by rewrite length_rev in Hrev. }
  assert (Hd : isDelimiter d = false).
  { apply Hlast. rewrite <- (rev_involutive (c :: name)), Hrev.
    simpl. by rewrite last_snoc. }
  assert (Hshape : rev (before ++ (c :: name) ++ after)
                   = rev after ++ d :: (erom ++ rev before)).
  { rewrite !rev_app_distr, Hrev. by rewrite <- app_assoc. }
  rewrite Hshape.
  rewrite TrimLeft_set_strip; [|by apply forallb_rev|done].
  assert (Hback : rev (d :: erom ++ rev before) = before ++ c :: name).
  { change (d :: erom ++ rev before) with ((d :: erom) ++ rev before).
    by rewrite <- Hrev, rev_app_distr, !rev_involutive. }
  rewrite Hback.
  apply TrimLeft_set_strip; [done|]. by apply Hhd.
Qed.

(** X3: a name that begins and ends with a plain byte, with any run of the
    delimiters [@], [<] and [>] put before and after it, normalises to the
    name itself: "@alice", "<@alice>" and "@<alice>" are the same player. *)
Theorem X3_cleanUsername_decorated before name after :
  forallb isDelimiter before = true → forallb isDelimiter after = true →
  (∃ c, head name = Some c ∧ isPlain c = true) →
  (∃ c, last name = Some c ∧ isPlain c = true) →
  cleanUsername (before ++ name ++ after) = name.
Proof.
  intros Hb Ha (c & Hc & Hcp) (d & Hd & Hdp). unfold cleanUsername.
  assert (Hne : name ≠ []) by (by destruct name).
  assert (Htrim : TrimSpace (before ++ name ++ after) = before ++ name ++ after).
  { destruct (before ++ name ++ after) as [|x l] eqn:Hl.
    { by destruct before, name. }
    destruct (rev l) as [|y m] eqn:Hm.
    - apply (f_equal (@rev ascii)) in Hm. rewrite rev_involutive in Hm.
      simpl in Hm. subst l. unfold TrimSpace.
      assert ((code x < 128)%N ∧ isSpace1 x = false) as [Hx Hxs].
      { apply edge_ascii. destruct before as [|b bs].
        - destruct name as [|n ns]; [done|]. simpl in *. left. congruence.
        - simpl in *. right. apply andb_true_iff in Hb as [Hb _]. congruence. }
      rewrite TrimLeftSpace_ascii by done. change (rev [x]) with [x].
      by rewrite TrimRightSpace_rev_ascii.
    - apply (f_equal (@rev ascii)) in Hm. rewrite rev_involutive in Hm.
      simpl in Hm. subst l. apply TrimSpace_edges.
      + destruct before as [|b bs].
        * destruct name as [|n ns]; [done|]. simpl in *. left. congruence.
        * simpl in *. right. apply andb_true_iff in Hb as [Hb _]. congruence.
      + assert (Hy : last (before ++ name ++ after) = Some y).
        { rewrite Hl. change (x :: rev m ++ [y]) with ((x :: rev m) ++ [y]).
          apply last_snoc. }
        destruct (rev after) as [|a' af] eqn:Haf.
        * apply (f_equal (@rev ascii)) in Haf. rewrite rev_involutive in Haf.
          simpl in Haf. subst after. rewrite app_nil_r in Hy.
          rewrite last_app, Hd in Hy. left. congruence.
        * apply (f_equal (@rev ascii)) in Haf. rewrite rev_involutive in Haf.
          simpl in Haf. subst after. rewrite !app_assoc, last_snoc in Hy.
          right. apply forallb_forall with (x := a') in Ha; [congruence|].
          apply in_app_iff. right. by left. }
  rewrite Htrim. apply Trim_delimiters; try done.
  - intros c' Hc'. rewrite Hc in Hc'. injection Hc' as <-.
    apply plain_code in Hcp. tauto.
  - intros d' Hd'. rewrite Hd in Hd'. injection Hd' as <-.
    apply plain_code in Hdp. tauto.
Qed.

Lemma TrimLeft_set_head cut s c r :
  TrimLeft_set cut s = c :: r → cut c = false.
Proof.
  induction s as [|x s IH]; simpl; [done|].
  destruct (cut x) eqn:Hx; [done|]. by intros [= <- _].
Qed.

Lemma TrimLeft_set_suffix cut s : TrimLeft_set cut s `suffix_of` s.
Proof.
  induction s as [|x s IH]; simpl; [done|].
  destruct (cut x); [by apply suffix_cons_r|done].
Qed.

Lemma suffix_last {A} (l1 l2 : list A) :
  l1 `suffix_of` l2 → l1 ≠ [] → last l1 = last l2.
Proof.
  intros [k ->] Hne. rewrite last_app. by destruct (last l1) eqn:Hl;
    [|apply last_None in Hl].
Qed.

(** X4: a normalised identifier neither begins nor ends with one of the
    delimiters [@], [<] and [>]. *)
Theorem X4_cleanUsername_edges username c :
  head (cleanUsername username) = Some c
  ∨ last (cleanUsername username) = Some c →
  isDelimiter c = false.
Proof.
  unfold cleanUsername, Trim.
  change (fun c => existsb (Ascii.eqb c) (B "@<>")) with isDelimiter.
  set (t := TrimSpace username).
  intros [Hh|Hl].
  - destruct (TrimLeft_set isDelimiter (rev (TrimLeft_set isDelimiter (rev t))))
      as [|x r] eqn:Hx; [done|].
    simpl in Hh. injection Hh as ->. by apply TrimLeft_set_head in Hx.
  - set (inner := TrimLeft_set isDelimiter (rev t)) in *.
    destruct (TrimLeft_set isDelimiter (rev inner)) as [|x r] eqn:Hx; [done|].
    rewrite <- Hx in Hl.
    rewrite (suffix_last _ (rev inner)) in Hl;
      [|apply TrimLeft_set_suffix|by rewrite Hx].
    destruct inner as [|y inner'] eqn:Hi; [done|].
    simpl in Hl. rewrite last_snoc in Hl. injection Hl as <-.
    by apply TrimLeft_set_head in Hi.
Qed.

Lemma TrimLeftSpace_suffix s : TrimLeftSpace s `suffix_of` s.
Proof.
  assert (H : ∀ n s, (length s ≤ n)%nat → TrimLeftSpace s `suffix_of` s).
  { clear s. induction n as [|n IH]; intros s Hn.
    { by destruct s; [|simpl in Hn; lia]. }
    destruct s as [|a [|b [|c r]]]; simpl in *; try done.
    - destruct (isSpace1 a); [by apply suffix_cons_r|done].
    - destruct (isSpace1 a).
      { apply suffix_cons_r, (IH [b]). simpl. lia. }
      destruct (isSpace2 a b); [by do 2 apply suffix_cons_r|done].
    - destruct (isSpace1 a).
      { apply suffix_cons_r, (IH (b :: c :: r)). simpl. lia. }
      destruct (isSpace2 a b).
      { do 2 apply suffix_cons_r. apply (IH (c :: r)). simpl. lia. }
      destruct (isSpace3 a b c); [|done].
      do 3 apply suffix_cons_r. apply IH. lia. }
  by apply (H (length s)).
Qed.

Lemma TrimRightSpace_rev_suffix s : TrimRightSpace_rev s `suffix_of` s.
Proof.
  assert (H : ∀ n s, (length s ≤ n)%nat → TrimRightSpace_rev s `suffix_of` s).
  { clear s. induction n as [|n IH]; intros s Hn.
    { by destruct s; [|simpl in Hn; lia]. }
    destruct s as [|a [|b [|c r]]]; simpl in *; try done.
    - destruct (isSpace1 a); [by apply suffix_cons_r|done].
    - destruct (isSpace1 a).
      { apply suffix_cons_r, (IH [b]). simpl. lia. }
      destruct (isSpace2 b a); [by do 2 apply suffix_cons_r|done].
    - destruct (isSpace1 a).
      { apply suffix_cons_r, (IH (b :: c :: r)). simpl. lia. }
      destruct (isSpace2 b a).
      { do 2 apply suffix_cons_r. apply (IH (c :: r)). simpl. lia. }
      destruct (isSpace3 c b a); [|done].
      do 3 apply suffix_cons_r. apply IH. lia. }
  by apply (H (length s)).
Qed.

Lemma Forall_suffix_of {A} (P : A → Prop) (l1 l2 : list A) :
  l1 `suffix_of` l2 → Forall P l2 → Forall P l1.
Proof. intros [k ->] H. by apply Forall_app in H as [_ H]. Qed.

Lemma cleanUsername_Forall (P : ascii → Prop) s :
  Forall P s → Forall P (cleanUsername s).
Proof.
  intros H. unfold cleanUsername, Trim, TrimSpace.
  eapply Forall_suffix_of; [apply TrimLeft_set_suffix|].
  apply Forall_rev.
  eapply Forall_suffix_of; [apply TrimLeft_set_suffix|].
  apply Forall_rev. apply Forall_rev.
  eapply Forall_suffix_of; [apply TrimRightSpace_rev_suffix|].
  apply Forall_rev.
  eapply Forall_suffix_of; [apply TrimLeftSpace_suffix|done].
Qed.

Lemma leadingNonSpace_Forall s :
  Forall (fun c => isRegexSpace c = false) (leadingNonSpace s).
Proof.
  induction s as [|c r IH]; simpl; [constructor|].
  destruct (isRegexSpace c) eqn:Hc; constructor; done.
Qed.

Lemma userRegex_tokens s :
  (∀ tok, tok ∈ userRegex_FindAllString s →
          Forall (fun c => isRegexSpace c = false) tok)
  ∧ (∀ tok, tok ∈ userRegex_resume s →
            Forall (fun c => isRegexSpace c = false) tok).
Proof.
  induction s as [|c r [IH1 IH2]]; simpl.
  { split; intros tok Htok; by apply elem_of_nil in Htok. }
  split.
  - destruct (Ascii.eqb c "@") eqn:Hat; [|done].
    apply Ascii.eqb_eq in Hat. subst c.
    pose proof (leadingNonSpace_Forall r) as Hrun.
    destruct (leadingNonSpace r) as [|x run]; [done|].
    intros tok [->|Htok]%elem_of_cons; [|by apply IH2].
    by constructor.
  - by destruct (isRegexSpace c).
Qed.

(** X5: no identifier of a daily result contains a space, a tab, a line
    feed, a form feed or a carriage return. *)
Theorem X5_extract_identifier_bytes message u :
  is_Some (extract message !! u) →
  Forall (fun c => isRegexSpace c = false) (B u).
Proof.
  unfold extract. intros Hu.
  apply processLines_some in Hu as [Hu|(line & _ & _ & Hin)].
  { rewrite lookup_empty in Hu. by destruct Hu. }
  unfold usersOf in Hin. apply list_elem_of_fmap in Hin as (tok & -> & Htok).
  unfold B, text. rewrite String.list_ascii_of_string_of_list_ascii.
  apply cleanUsername_Forall. by apply (proj1 (userRegex_tokens line)).
Qed.

Lemma leadingDigits_app ds rest :
  forallb isDigit ds = true →
  leadingDigits (ds ++ "/"%char :: rest) = ds.
Proof.
  induction ds as [|c ds IH]; simpl; [done|].
  intros [Hc Hds]%andb_true_iff. by rewrite Hc, IH.
Qed.

Lemma HasPrefix_nil s : HasPrefix s [] = true.
Proof. by destruct s. Qed.

Lemma scoreRegex_at_digits ds rest :
  ds ≠ [] → forallb isDigit ds = true →
  scoreRegex_at (ds ++ B "/6" ++ rest) = ds ++ B "/6".
Proof.
  intros Hne Hds. unfold scoreRegex_at.
  change (B "/6" ++ rest) with ("/"%char :: "6"%char :: rest).
  rewrite leadingDigits_app by done.
  rewrite bool_decide_eq_false_2 by done.
  rewrite drop_app_length. cbn. by rewrite HasPrefix_nil.
Qed.

Lemma scoreRegex_FindString_at s :
  scoreRegex_at s ≠ [] → scoreRegex_FindString s = scoreRegex_at s.
Proof.
  intros H. destruct s as [|c r]; cbn [scoreRegex_FindString].
  - by destruct (scoreRegex_at []).
  - by destruct (scoreRegex_at (c :: r)).
Qed.

Lemma scoreRegex_FindString_skip pre s :
  Forall (fun c => isDigit c = false ∧ c ≠ "X"%char) pre →
  scoreRegex_FindString (pre ++ s) = scoreRegex_FindString s.
Proof.
  induction 1 as [|c pre [Hd Hx] _ IH]; [done|].
  cbn [app scoreRegex_FindString].
  assert (scoreRegex_at (c :: pre ++ s) = []) as ->; [|done].
  unfold scoreRegex_at. simpl. rewrite Hd. simpl.
  by rewrite (proj2 (Ascii.eqb_neq c "X") Hx).
Qed.

(** X6: on a line whose text before the first score token has no digit
    and no [X], the score match is that first token, whatever follows it,
    later score tokens included. *)
Theorem X6_first_score_token_decides pre rest :
  Forall (fun c => isDigit c = false ∧ c ≠ "X"%char) pre →
  (∀ ds, ds ≠ [] → forallb isDigit ds = true →
         scoreRegex_FindString (pre ++ ds ++ B "/6" ++ rest) = ds ++ B "/6")
  ∧ scoreRegex_FindString (pre ++ B "X/6" ++ rest) = B "X/6".
Proof.
  intros Hpre. split.
  - intros ds Hne Hds. rewrite scoreRegex_FindString_skip by done.
    rewrite scoreRegex_FindString_at; rewrite scoreRegex_at_digits; try done.
    by destruct ds.
  - rewrite scoreRegex_FindString_skip by done.
    rewrite scoreRegex_FindString_at; unfold scoreRegex_at; cbn;
      by rewrite HasPrefix_nil.
Qed.

End ExtractorExtras.

(** * Further properties of the scoring engine *)

Section ScoringExtras.

Variable excludedUser : string.
Variable rangeOf : ∀ V : Type, gmap string V → list (string * V).
Hypothesis rangeOf_perm : ∀ V (m : gmap string V), rangeOf V m ≡ₚ map_to_list m.

(** X7: the ledger after a run does not depend on the order in which the
    [range] loops and the [SELECT] visit their entries, whatever storage
    calls fail. *)
Theorem X7_ledger_independent_of_iteration_order
    (rangeOf' : ∀ V : Type, gmap string V → list (string * V)) F dailyUsers db :
  (∀ V (m : gmap string V), rangeOf' V m ≡ₚ map_to_list m) →
  table (updateScoresBasedOnResults F excludedUser rangeOf dailyUsers db)
  = table (updateScoresBasedOnResults F excludedUser rangeOf' dailyUsers db).
Proof.
  intros Hperm'. destruct (users_query_fails F) eqn:HF.
  { unfold updateScoresBasedOnResults. by rewrite HF. }
  apply map_eq. intros u.
  by rewrite !updateScoresBasedOnResults_lookup.
Qed.

Lemma rowAfterCall_is_Some F u s b r : is_Some (rowAfterCall F u s b (Some r)).
Proof. unfold rowAfterCall. by destruct (_ || _). Qed.

(** X8: whatever storage calls fail, a run deletes no row, and a player
    who has a row after the run had one before or is in the daily
    results. *)
Theorem X8_rows_are_kept_and_added_for_daily_players F dailyUsers db u :
  (is_Some (table db !! u) →
   is_Some (table (updateScoresBasedOnResults F excludedUser rangeOf
                     dailyUsers db) !! u))
  ∧ (is_Some (table (updateScoresBasedOnResults F excludedUser rangeOf
                       dailyUsers db) !! u) →
     is_Some (table db !! u) ∨ is_Some (dailyUsers !! u)).
Proof.
  destruct (users_query_fails F) eqn:HF.
  { unfold updateScoresBasedOnResults. rewrite HF. auto. }
  rewrite updateScoresBasedOnResults_lookup by done.
  destruct (dailyUsers !! u) as [s|] eqn:Hs.
  - split; [|eauto]. intros [r ->]. apply rowAfterCall_is_Some.
  - split.
    + intros [r Hr]. rewrite Hr. destruct (penalised _ _ _ _ _); [|eauto].
      apply rowAfterCall_is_Some.
    + destruct (penalised F excludedUser dailyUsers db u) eqn:Hp; [|auto].
      intros _. left. unfold penalised in Hp.
      apply andb_prop in Hp as [Hp _]. apply andb_prop in Hp as [Hp _].
      apply andb_prop in Hp as [Hp _]. by apply bool_decide_eq_true in Hp.
Qed.

(** X9: every [INSERT] of a run is for a player of the daily results who
    had no row, with the daily score and one day played: a run creates no
    row with [days_played = 0], the penalty being applied to existing rows
    only. *)
Theorem X9_run_inserts_only_scored_days F dailyUsers db :
  ∃ new,
    issued (updateScoresBasedOnResults F excludedUser rangeOf dailyUsers db)
    = issued db ++ new
    ∧ ∀ u s d, INSERT u s d ∈ new →
               d = 1 ∧ dailyUsers !! u = Some s ∧ table db !! u = None.
Proof.
  destruct (users_query_fails F) eqn:HF.
  { unfold updateScoresBasedOnResults. rewrite HF. exists [].
    split; [by rewrite app_nil_r|]. by intros u s d ?%elem_of_nil. }
  eexists. split; [by apply updateScoresBasedOnResults_issued|].
  intros u s d Hq.
  apply list_elem_of_In, in_concat in Hq as [qs [Hqs Hq]].
  apply in_map_iff in Hqs as [c [<- Hc]].
  apply list_elem_of_In in Hq, Hc.
  pose proof (stmtsOfCall_user _ _ _ _ _ _ Hq) as Hu. simpl in Hu.
  unfold callsOf in Hc. apply elem_of_app in Hc as [Hc|Hc].
  - apply elem_of_dailyCalls in Hc as [s' [Hc Hs]]; [|done].
    rewrite Hc in Hq. cbn [fst snd] in Hq. rewrite <- Hu in *.
    unfold stmtsOfCall in Hq. destruct (row_query_fails F u).
    { by apply elem_of_nil in Hq. }
    destruct (table db !! u) eqn:Hr;
      apply list_elem_of_singleton in Hq; [done|].
    by injection Hq as -> ->.
  - apply elem_of_penaltyCalls in Hc as [Hc Hp]; [|done].
    unfold penalised in Hp.
    apply andb_prop in Hp as [Hp _]. apply andb_prop in Hp as [Hp _].
    apply andb_prop in Hp as [Hk _].
    apply bool_decide_eq_true in Hk as [r Hr].
    rewrite Hc in Hq. cbn [fst snd] in Hq.
    unfold stmtsOfCall in Hq. destruct (row_query_fails F c.1).
    { by apply elem_of_nil in Hq. }
    rewrite Hr in Hq. by apply list_elem_of_singleton in Hq.
Qed.

(** X10: when the enumeration succeeds, the row of a player after a run
    depends on the storage failures that concern this player only: two runs
    that differ in the failures of other players leave this player the same
    row. *)
Theorem X10_failures_of_other_players_do_not_matter F F' dailyUsers db u :
  users_query_fails F = false → users_query_fails F' = false →
  users_scan_fails F u = users_scan_fails F' u →
  row_query_fails F u = row_query_fails F' u →
  exec_fails F u = exec_fails F' u →
  table (updateScoresBasedOnResults F excludedUser rangeOf dailyUsers db) !! u
  = table (updateScoresBasedOnResults F' excludedUser rangeOf dailyUsers db)
      !! u.
Proof.
  intros HF HF' Hscan Hrow Hexec.
  rewrite !updateScoresBasedOnResults_lookup by done.
  unfold rowAfterCall, penalised. by rewrite Hscan, Hrow, Hexec.
Qed.

(** X11: when the fetch or the write of a player fails, the run leaves
    the row of that player as it was: the score of the day, or the penalty,
    is lost for that run. *)
Theorem X11_failed_update_leaves_row F dailyUsers db u :
  row_query_fails F u = true ∨ exec_fails F u = true →
  table (updateScoresBasedOnResults F excludedUser rangeOf dailyUsers db) !! u
  = table db !! u.
Proof.
  intros Hfail. destruct (users_query_fails F) eqn:HF.
  { unfold updateScoresBasedOnResults. by rewrite HF. }
  rewrite updateScoresBasedOnResults_lookup by done.
  assert (Hor : row_query_fails F u || exec_fails F u = true).
  { destruct Hfail as [-> | ->]; [done|by rewrite orb_true_r]. }
  unfold rowAfterCall. rewrite Hor.
  destruct (dailyUsers !! u); [done|]. by destruct (penalised _ _ _ _ _).
Qed.

(** X12: a run is not idempotent.  With no storage failure, applying the
    same daily results a second time adds the score and the day a second
    time, and the penalty of the absent players a second time. *)
Theorem X12_second_run_counts_again dailyUsers db u :
  table (updateScoresBasedOnResults noFaults excludedUser rangeOf dailyUsers
           (updateScoresBasedOnResults noFaults excludedUser rangeOf
              dailyUsers db)) !! u
  = match dailyUsers !! u, table db !! u with
    | Some s, None => Some (mkRow (int_add s s) (int_add 1 1))
    | Some s, Some r =>
        Some (mkRow (int_add (int_add (col_score r) s) s)
                    (int_add (int_add (col_days_played r) 1) 1))
    | None, Some r =>
        if decide (u = excludedUser) then Some r
        else Some (mkRow (int_add (int_add (col_score r) 7) 7)
                         (col_days_played r))
    | None, None => None
    end.
Proof.
  rewrite !updateScoresBasedOnResults_noFaults_lookup by done.
  destruct (dailyUsers !! u), (table db !! u); try done.
  by destruct (decide (u = excludedUser)).
Qed.

Lemma wrap_range z : minInt ≤ wrap z ≤ maxInt.
Proof.
  unfold wrap, minInt, maxInt.
  pose proof (Z.mod_pos_bound (z + 2 ^ 63) (2 ^ 64) ltac:(lia)). lia.
Qed.

(** X13: if every row of the ledger has a positive [days_played] below
    [maxInt], every row has a positive [days_played] after a run, whatever
    storage calls fail: the rows that the bot writes are never filtered out
    of the leaderboard. *)
Theorem X13_days_played_stay_positive F dailyUsers db :
  (∀ u r, table db !! u = Some r →
          0 < col_days_played r ∧ col_days_played r < maxInt) →
  ∀ u r, table (updateScoresBasedOnResults F excludedUser rangeOf
                  dailyUsers db) !! u = Some r →
         0 < col_days_played r.
Proof.
  intros Hinv u r'. destruct (users_query_fails F) eqn:HF.
  { unfold updateScoresBasedOnResults. rewrite HF. intros H.
    by apply (Hinv u r'). }
  rewrite updateScoresBasedOnResults_lookup by done.
  assert (Hcall : ∀ s b o r',
            (o = None → b = true) →
            (∀ r, o = Some r → 0 < col_days_played r
                               ∧ col_days_played r < maxInt) →
            rowAfterCall F u s b o = Some r' → 0 < col_days_played r').
  { intros s b o r0 Hnew Ho. unfold rowAfterCall.
    destruct (_ || _).
    { intros ->. by apply (Ho r0). }
    destruct o as [r|].
    - intros [= <-]. simpl. destruct (Ho r eq_refl) as [Hlo Hhi].
      destruct b; [|done]. unfold maxInt in Hhi.
      rewrite int_add_exact; [lia|]. unfold minInt, maxInt. lia.
    - rewrite Hnew by done. by intros [= <-]. }
  destruct (dailyUsers !! u) as [s|].
  - apply Hcall; [done|]. intros r Hr. by apply (Hinv u).
  - destruct (penalised F excludedUser dailyUsers db u) eqn:Hp.
    + apply Hcall; [|intros r Hr; by apply (Hinv u)].
      intros Hnone. unfold penalised in Hp. rewrite Hnone in Hp.
      rewrite bool_decide_eq_false_2 in Hp; [done|]. by intros [? ?].
    + intros H. by apply (Hinv u r').
Qed.

End ScoringExtras.

(** * Further properties of the leaderboard *)

Section LeaderboardExtras.

Variable excludedUser : string.
Variable rangeOf : ∀ V : Type, gmap string V → list (string * V).
Hypothesis rangeOf_perm : ∀ V (m : gmap string V), rangeOf V m ≡ₚ map_to_list m.

Lemma thenBy_Eq c1 c2 : thenBy c1 c2 = Eq → c1 = Eq ∧ c2 = Eq.
Proof. by destruct c1. Qed.

Lemma rowLe_antisym_name a b : rowLe a b → rowLe b a → a.1 = b.1.
Proof.
  unfold rowLe. intros Hab Hba.
  rewrite (cmp_antisym _ rowCompare_CmpOrder a b) in Hba.
  destruct (rowCompare a b) eqn:Hc; try done.
  unfold rowCompare in Hc.
  apply thenBy_Eq in Hc as [_ Hc]. apply thenBy_Eq in Hc as [_ Hc].
  by apply String.compare_eq_iff.
Qed.

Lemma leaderboardRows_sorted t :
  StronglySorted rowLe (leaderboardRows rangeOf t).
Proof. unfold leaderboardRows. apply StronglySorted_merge_sort; apply _. Qed.

Lemma leaderboardRows_elem t u r :
  (u, r) ∈ leaderboardRows rangeOf t
  ↔ t !! u = Some r ∧ 0 < col_days_played r.
Proof.
  rewrite leaderboardRows_perm by done.
  rewrite list_elem_of_filter, elem_of_map_to_list. simpl. tauto.
Qed.

(** X14: the leaderboard that is sent does not depend on the order in
    which the query scans the table: usernames being unique, the three
    terms of the [ORDER BY] leave no tie. *)
Theorem X14_leaderboard_independent_of_scan_order
    (rangeOf' : ∀ V : Type, gmap string V → list (string * V)) F db :
  (∀ V (m : gmap string V), rangeOf' V m ≡ₚ map_to_list m) →
  sendLeaderboard F rangeOf db = sendLeaderboard F rangeOf' db.
Proof.
  intros Hperm'. unfold sendLeaderboard.
  destruct (board_query_fails F); [done|]. do 3 f_equal.
  apply (StronglySorted_unique_strong rowLe).
  - intros [u1 r1] [u2 r2] H1 H2 H12 H21.
    pose proof (rowLe_antisym_name _ _ H12 H21) as Hu. simpl in Hu. subst u2.
    apply leaderboardRows_elem in H1 as [H1 _].
    unfold leaderboardRows in H2.
    rewrite merge_sort_Permutation, Hperm' in H2.
    apply list_elem_of_filter in H2 as [_ H2].
    apply elem_of_map_to_list in H2. congruence.
  - apply leaderboardRows_sorted.
  - unfold leaderboardRows. apply StronglySorted_merge_sort; apply _.
  - unfold leaderboardRows.
    by rewrite !merge_sort_Permutation, rangeOf_perm, Hperm'.
Qed.

Lemma int_add_succ rank : 1 ≤ rank → rank < maxInt → int_add rank 1 = rank + 1.
Proof.
  intros H1 H2. apply int_add_exact. unfold minInt, maxInt in *. lia.
Qed.

(** X15: the lines of the leaderboard are the rows whose scan succeeds, in
    the order of the query, and their ranks are consecutive whatever scans
    fail: the first three lines carry the medals, and line [i], counted
    from 0, carries the number [i + 1] from the fourth line on. *)
Theorem X15_ranks_are_consecutive F rows :
  line_username <$> boardLines F 1 rows
  = filter (fun u => board_scan_fails F u = false) rows.*1
  ∧ ∀ i line,
      boardLines F 1 rows !! i = Some line → Z.of_nat i < maxInt →
      line_marker line
      = match i with
        | 0%nat => Gold
        | 1%nat => Silver
        | 2%nat => Bronze
        | _ => Numbered (Z.of_nat i + 1)
        end.
Proof.
  split.
  - generalize 1. induction rows as [|[u r] rows IH]; intros rank; [done|].
    cbn [boardLines]. rewrite fmap_cons, filter_cons. cbn [fst].
    destruct (board_scan_fails F u).
    + rewrite decide_False by done. apply IH.
    + rewrite decide_True by done. rewrite fmap_cons. cbn. f_equal. apply IH.
  - assert (H : ∀ rows rank i line,
              1 ≤ rank →
              boardLines F rank rows !! i = Some line →
              rank + Z.of_nat i ≤ maxInt →
              line_marker line = markerOf (rank + Z.of_nat i)).
    { clear rows. induction rows as [|[u r] rows IH];
        intros rank i line Hrank Hi Hmax; [done|].
      cbn [boardLines] in Hi. destruct (board_scan_fails F u).
      { by apply IH. }
      destruct i as [|i].
      - injection Hi as <-. simpl. by rewrite Z.add_0_r.
      - cbn in Hi. apply IH in Hi.
        + rewrite Hi. rewrite int_add_succ by lia. f_equal. lia.
        + rewrite int_add_succ by lia. lia.
        + rewrite int_add_succ by lia. lia. }
    intros i line Hi Hmax. rewrite (H rows 1 i line) by (done || lia).
    destruct i as [|[|[|i]]]; try done.
    unfold markerOf.
    rewrite !(proj2 (Z.eqb_neq _ _)) by lia. f_equal. lia.
Qed.

(** X16: with no storage failure, the leaderboard has no line (the notice
    that there are no results yet) exactly when no row of the ledger has a
    positive [days_played]. *)
Theorem X16_empty_leaderboard db :
  sendLeaderboard noFaults rangeOf db = [Leaderboard []]
  ↔ ∀ u r, table db !! u = Some r → col_days_played r ≤ 0.
Proof.
  unfold sendLeaderboard. cbn [board_query_fails noFaults]. split.
  - intros Hsend u r Hr.
    destruct (decide (0 < col_days_played r)) as [Hd|]; [|lia].
    assert (Hin : (u, r) ∈ leaderboardRows rangeOf (table db))
      by (by apply leaderboardRows_elem).
    injection Hsend as Hlines.
    apply (f_equal (fmap line_username)) in Hlines.
    rewrite boardLines_usernames in Hlines.
    destruct (leaderboardRows rangeOf (table db)); [|done].
    by apply elem_of_nil in Hin.
  - intros Hall. do 2 f_equal.
    destruct (leaderboardRows rangeOf (table db)) as [|[u r] l] eqn:Hrows;
      [done|].
    assert (Hin : (u, r) ∈ leaderboardRows rangeOf (table db))
      by (rewrite Hrows; left).
    apply leaderboardRows_elem in Hin as [Hr Hd].
    specialize (Hall u r Hr). lia.
Qed.

(** X17: with no storage failure, the replies to a results message are the
    acknowledgement and then the leaderboard, which lists every player that
    the message scores, provided the days of that player, if known, are not
    negative and below [maxInt]. *)
Theorem X17_scored_players_are_listed message db u :
  is_Some (extract message !! u) →
  (∀ r, table db !! u = Some r →
        0 ≤ col_days_played r ∧ col_days_played r < maxInt) →
  ∃ lines,
    (processWordleResultsMessage noFaults excludedUser rangeOf message db).2
    = [Acknowledgement; Leaderboard lines]
    ∧ u ∈ line_username <$> lines.
Proof.
  intros [s Hs] Hdays. unfold processWordleResultsMessage. cbn [snd].
  unfold sendLeaderboard. cbn [board_query_fails noFaults].
  eexists. split; [done|]. rewrite boardLines_usernames.
  set (db' := updateScoresBasedOnResults _ _ _ _ _).
  assert (Hrow : ∃ r', table db' !! u = Some r' ∧ 0 < col_days_played r').
  { unfold db'. rewrite updateScoresBasedOnResults_noFaults_lookup by done.
    rewrite Hs. destruct (table db !! u) as [r|] eqn:Hr.
    - eexists. split; [done|]. simpl. destruct (Hdays r eq_refl).
      rewrite int_add_exact; unfold minInt, maxInt in *; lia.
    - eexists. split; [done|]. simpl. lia. }
  destruct Hrow as (r' & Hr' & Hd).
  apply list_elem_of_fmap. exists (u, r'). split; [done|].
  by apply leaderboardRows_elem.
Qed.

End LeaderboardExtras.

(** * The message handler *)

Section HandlerExtras.

Variable unicodeToLower : bytes → bytes.
Variable Fcommand F : Faults.
Variable excludedUser : string.
Variable rangeOf : ∀ V : Type, gmap string V → list (string * V).
Variable selfID : string.

Lemma HasPrefix_app p r : HasPrefix (p ++ r) p = true.
Proof.
  induction p as [|c p IH]; simpl; [by destruct r|].
  by rewrite Ascii.eqb_refl, IH.
Qed.

Lemma Contains_prefix s b : HasPrefix s b = true → Contains s b = true.
Proof. intros H. destruct s; cbn [Contains]; by rewrite H. Qed.

Lemma Contains_app a b c : Contains (a ++ b ++ c) b = true.
Proof.
  induction a as [|x a IH].
  - apply Contains_prefix, (HasPrefix_app b c).
  - cbn [app Contains]. rewrite IH. by rewrite orb_true_r.
Qed.

Lemma ToLower_ascii s :
  forallb isASCII s = true → ToLower unicodeToLower s = map lowerByte s.
Proof. intros H. unfold ToLower. by rewrite H. Qed.

(** X18: the handler changes the database only for a message that is not
    the bot's own, whose author is Wordle#2092 and whose lowered content
    contains "results"; the database is then the one after the scoring run
    on the daily result of the content. *)
Theorem X18_ledger_changes_only_on_results_of_Wordle m db :
  (onMessageCreate unicodeToLower Fcommand F excludedUser rangeOf selfID
     m db).1 ≠ db →
  user_ID (msg_Author m) ≠ selfID
  ∧ user_Username (msg_Author m) = "Wordle"
  ∧ user_Discriminator (msg_Author m) = "2092"
  ∧ Contains (ToLower unicodeToLower (B (msg_Content m))) (B "results") = true
  ∧ (onMessageCreate unicodeToLower Fcommand F excludedUser rangeOf selfID
       m db).1
    = updateScoresBasedOnResults F excludedUser rangeOf
        (extract (msg_Content m)) db.
Proof.
  unfold onMessageCreate. case_bool_decide as Hself; [done|].
  destruct (bool_decide (user_Username (msg_Author m) = "Wordle")) eqn:Hu;
    [|done].
  destruct (bool_decide (user_Discriminator (msg_Author m) = "2092")) eqn:Hd;
    [|done].
  cbn [andb].
  destruct (Contains _ (B "results")) eqn:Hc; [|done].
  apply bool_decide_eq_true in Hu, Hd. intros _.
  unfold processWordleResultsMessage. done.
Qed.

(** X19: a message of ASCII text that begins with "!leaderboard" in any
    letter case, from an author other than the bot and other than
    Wordle#2092, leaves the database as it is and is answered, on its own
    channel, by the leaderboard. *)
Theorem X19_leaderboard_command_any_case m db w rest :
  user_ID (msg_Author m) ≠ selfID →
  ¬ (user_Username (msg_Author m) = "Wordle"
     ∧ user_Discriminator (msg_Author m) = "2092") →
  B (msg_Content m) = w ++ rest →
  forallb isASCII (w ++ rest) = true →
  map lowerByte w = B "!leaderboard" →
  onMessageCreate unicodeToLower Fcommand F excludedUser rangeOf selfID m db
  = (db, map (fun reply => (msg_ChannelID m, reply))
             (sendLeaderboard Fcommand rangeOf db)).
Proof.
  intros Hself Hw Hcontent Hascii Hcmd. unfold onMessageCreate.
  rewrite bool_decide_eq_false_2 by done.
  rewrite Hcontent, ToLower_ascii by done.
  rewrite map_app, Hcmd, HasPrefix_app.
  destruct (bool_decide (user_Username (msg_Author m) = "Wordle")) eqn:Hu;
    [|done].
  destruct (bool_decide (user_Discriminator (msg_Author m) = "2092")) eqn:Hd;
    [|done].
  apply bool_decide_eq_true in Hu, Hd. by destruct Hw.
Qed.

(** X20: a message of ASCII text from Wordle#2092 that contains "results"
    in any letter case is processed: the database is the one after the
    scoring run, and the replies end, on the channel of the message, with
    the acknowledgement and the leaderboard of the new database; before
    them comes nothing, or the leaderboard of the old database when the
    message begins with the leaderboard command. *)
Theorem X20_results_message_any_case m db pre w post :
  user_ID (msg_Author m) ≠ selfID →
  user_Username (msg_Author m) = "Wordle" →
  user_Discriminator (msg_Author m) = "2092" →
  B (msg_Content m) = pre ++ w ++ post →
  forallb isASCII (pre ++ w ++ post) = true →
  map lowerByte w = B "results" →
  let db' := updateScoresBasedOnResults F excludedUser rangeOf
               (extract (msg_Content m)) db in
  ∃ command,
    onMessageCreate unicodeToLower Fcommand F excludedUser rangeOf selfID m db
    = (db', command
            ++ (msg_ChannelID m, Acknowledgement)
               :: map (fun reply => (msg_ChannelID m, reply))
                      (sendLeaderboard F rangeOf db'))
    ∧ (command = []
       ∨ command = map (fun reply => (msg_ChannelID m, reply))
                       (sendLeaderboard Fcommand rangeOf db)).
Proof.
  intros Hself Hu Hd Hcontent Hascii Hres db'. unfold onMessageCreate.
  rewrite bool_decide_eq_false_2 by done.
  rewrite !bool_decide_eq_true_2 by done. cbn [andb].
  rewrite Hcontent, ToLower_ascii by done.
  rewrite !map_app, Hres, Contains_app.
  unfold processWordleResultsMessage. fold db'.
  eexists. split; [reflexivity|].
  destruct (HasPrefix _ _); auto.
Qed.

End HandlerExtras.

(** ** Instances of the further statements *)

Lemma reverseOrder_perm V (m : gmap string V) :
  reverseOrder V m ≡ₚ map_to_list m.
Proof. unfold reverseOrder. by rewrite <- Permutation_rev. Qed.

Lemma X3_cleanUsername_decorated_witness :
  cleanUsername (B "<@" ++ B "123" ++ B ">") = B "123".
Proof.
  apply (X3_cleanUsername_decorated (B "<@") (B "123") (B ">")).
  - reflexivity.
  - reflexivity.
  - exists "1"%char. split; reflexivity.
  - exists "3"%char. split; reflexivity.
Defined.

Lemma X4_cleanUsername_edges_witness : isDelimiter "b" = false.
Proof.
  apply (X4_cleanUsername_edges (B "@<bob>") "b"). left. reflexivity.
Defined.

Lemma X5_extract_identifier_bytes_witness :
  Forall (fun c => isRegexSpace c = false) (B "alice").
Proof.
  apply (X5_extract_identifier_bytes "1/6 @alice" "alice").
  exists 1. vm_compute. reflexivity.
Defined.

Lemma X6_first_score_token_decides_witness :
  scoreRegex_FindString (B "day " ++ B "3" ++ B "/6" ++ B " X/6 @a")
  = B "3" ++ B "/6".
Proof.
  apply (proj1 (X6_first_score_token_decides (B "day ") (B " X/6 @a")
                  ltac:(repeat constructor; discriminate))).
  - discriminate.
  - reflexivity.
Defined.

Lemma X7_ledger_independent_of_iteration_order_witness :
  let db := mkDB {[ "alice" := mkRow 5 2; "bob" := mkRow 10 3 ]} [] in
  table (updateScoresBasedOnResults noFaults "carol" mapOrder
           {[ "alice" := 1; "dan" := 4 ]} db)
  = table (updateScoresBasedOnResults noFaults "carol" reverseOrder
             {[ "alice" := 1; "dan" := 4 ]} db).
Proof.
  exact (X7_ledger_independent_of_iteration_order "carol" mapOrder
           mapOrder_perm reverseOrder noFaults
           {[ "alice" := 1; "dan" := 4 ]}
           (mkDB {[ "alice" := mkRow 5 2; "bob" := mkRow 10 3 ]} [])
           reverseOrder_perm).
Defined.

Lemma X8_rows_are_kept_and_added_for_daily_players_witness :
  is_Some (table (updateScoresBasedOnResults noFaults "carol" mapOrder
                    {[ "alice" := 1 ]} (mkDB {[ "bob" := mkRow 10 3 ]} []))
             !! "bob").
Proof.
  apply (proj1 (X8_rows_are_kept_and_added_for_daily_players "carol" mapOrder
                  mapOrder_perm noFaults {[ "alice" := 1 ]}
                  (mkDB {[ "bob" := mkRow 10 3 ]} []) "bob")).
  exists (mkRow 10 3). vm_compute. reflexivity.
Defined.

Lemma X9_run_inserts_only_scored_days_witness :
  let db := mkDB {[ "bob" := mkRow 10 3 ]} [] in
  ∃ new,
    issued (updateScoresBasedOnResults noFaults "carol" mapOrder
              {[ "alice" := 1 ]} db)
    = issued db ++ new
    ∧ ∀ u s d, INSERT u s d ∈ new →
               d = 1 ∧ ({[ "alice" := 1 ]} : gmap string Z) !! u = Some s
               ∧ table db !! u = None.
Proof.
  exact (X9_run_inserts_only_scored_days "carol" mapOrder mapOrder_perm
           noFaults {[ "alice" := 1 ]} (mkDB {[ "bob" := mkRow 10 3 ]} [])).
Defined.

Lemma X10_failures_of_other_players_do_not_matter_witness :
  let db := mkDB {[ "alice" := mkRow 5 2; "bob" := mkRow 10 3 ]} [] in
  table (updateScoresBasedOnResults bobWriteFails "carol" mapOrder
           {[ "alice" := 1 ]} db) !! "alice"
  = table (updateScoresBasedOnResults noFaults "carol" mapOrder
             {[ "alice" := 1 ]} db) !! "alice".
Proof.
  exact (X10_failures_of_other_players_do_not_matter "carol" mapOrder
           mapOrder_perm bobWriteFails noFaults {[ "alice" := 1 ]}
           (mkDB {[ "alice" := mkRow 5 2; "bob" := mkRow 10 3 ]} []) "alice"
           eq_refl eq_refl eq_refl eq_refl eq_refl).
Defined.

Lemma X11_failed_update_leaves_row_witness :
  let db := mkDB {[ "alice" := mkRow 5 2; "bob" := mkRow 10 3 ]} [] in
  table (updateScoresBasedOnResults bobWriteFails "carol" mapOrder
           {[ "alice" := 1 ]} db) !! "bob"
  = table db !! "bob".
Proof.
  exact (X11_failed_update_leaves_row "carol" mapOrder mapOrder_perm
           bobWriteFails {[ "alice" := 1 ]}
           (mkDB {[ "alice" := mkRow 5 2; "bob" := mkRow 10 3 ]} []) "bob"
           (or_intror eq_refl)).
Defined.

Lemma X12_second_run_counts_again_witness :
  let db := mkDB {[ "bob" := mkRow 10 3 ]} [] in
  table (updateScoresBasedOnResults noFaults "carol" mapOrder
           {[ "alice" := 1 ]}
           (updateScoresBasedOnResults noFaults "carol" mapOrder
              {[ "alice" := 1 ]} db)) !! "bob"
  = match ({[ "alice" := 1 ]} : gmap string Z) !! "bob", table db !! "bob" with
    | Some s, None => Some (mkRow (int_add s s) (int_add 1 1))
    | Some s, Some r =>
        Some (mkRow (int_add (int_add (col_score r) s) s)
                    (int_add (int_add (col_days_played r) 1) 1))
    | None, Some r =>
        if decide ("bob" = "carol") then Some r
        else Some (mkRow (int_add (int_add (col_score r) 7) 7)
                         (col_days_played r))
    | None, None => None
    end.
Proof.
  exact (X12_second_run_counts_again "carol" mapOrder mapOrder_perm
           {[ "alice" := 1 ]} (mkDB {[ "bob" := mkRow 10 3 ]} []) "bob").
Defined.

Lemma X13_days_played_stay_positive_witness :
  table (updateScoresBasedOnResults noFaults "carol" mapOrder
           {[ "alice" := 1 ]} (mkDB {[ "bob" := mkRow 10 3 ]} [])) !! "bob"
  = Some (mkRow 17 3)
  ∧ 0 < col_days_played (mkRow 17 3).
Proof.
  assert (H : table (updateScoresBasedOnResults noFaults "carol" mapOrder
                       {[ "alice" := 1 ]} (mkDB {[ "bob" := mkRow 10 3 ]} []))
                !! "bob" = Some (mkRow 17 3)) by (vm_compute; reflexivity).
  split; [exact H|].
  apply (X13_days_played_stay_positive "carol" mapOrder mapOrder_perm
           noFaults {[ "alice" := 1 ]} (mkDB {[ "bob" := mkRow 10 3 ]} []))
    with (u := "bob"); [|exact H].
  intros u r. cbn [table]. destruct (decide (u = "bob")) as [->|Hne].
  - rewrite lookup_singleton_eq. intros [= <-]. simpl. unfold maxInt. lia.
  - rewrite lookup_singleton_ne by done. discriminate.
Defined.

Lemma X14_leaderboard_independent_of_scan_order_witness :
  let db := mkDB {[ "alice" := mkRow 5 2; "bob" := mkRow 10 4 ]} [] in
  sendLeaderboard noFaults mapOrder db
  = sendLeaderboard noFaults reverseOrder db.
Proof.
  exact (X14_leaderboard_independent_of_scan_order mapOrder mapOrder_perm
           reverseOrder noFaults
           (mkDB {[ "alice" := mkRow 5 2; "bob" := mkRow 10 4 ]} [])
           reverseOrder_perm).
Defined.

Lemma X15_ranks_are_consecutive_witness :
  ∃ line,
    boardLines noFaults 1
      [("a", mkRow 1 1); ("b", mkRow 2 1); ("c", mkRow 3 1); ("d", mkRow 4 1)]
      !! 3%nat = Some line
    ∧ line_marker line = Numbered 4.
Proof.
  eexists. split; [reflexivity|].
  apply (proj2 (X15_ranks_are_consecutive noFaults
                  [("a", mkRow 1 1); ("b", mkRow 2 1); ("c", mkRow 3 1);
                   ("d", mkRow 4 1)]) 3%nat); reflexivity.
Defined.

Lemma X16_empty_leaderboard_witness :
  sendLeaderboard noFaults mapOrder (mkDB {[ "dan" := mkRow 7 0 ]} [])
  = [Leaderboard []].
Proof.
  apply (proj2 (X16_empty_leaderboard mapOrder mapOrder_perm
                  (mkDB {[ "dan" := mkRow 7 0 ]} []))).
  intros u r. cbn [table]. destruct (decide (u = "dan")) as [->|Hne].
  - rewrite lookup_singleton_eq. intros [= <-]. simpl. lia.
  - rewrite lookup_singleton_ne by done. discriminate.
Defined.

Lemma X17_scored_players_are_listed_witness :
  ∃ lines,
    (processWordleResultsMessage noFaults "carol" mapOrder "1/6 @alice"
       (mkDB ∅ [])).2
    = [Acknowledgement; Leaderboard lines]
    ∧ "alice" ∈ line_username <$> lines.
Proof.
  apply (X17_scored_players_are_listed "carol" mapOrder mapOrder_perm
           "1/6 @alice" (mkDB ∅ []) "alice").
  - exists 1. vm_compute. reflexivity.
  - intros r. cbn [table]. rewrite lookup_empty. discriminate.
Defined.

Lemma X18_ledger_changes_only_on_results_of_Wordle_witness :
  let m := mkMessageCreate wordle "Results: 1/6 @alice" "general" in
  (onMessageCreate (fun s => s) noFaults noFaults "carol" mapOrder "1"
     m (mkDB ∅ [])).1
  = updateScoresBasedOnResults noFaults "carol" mapOrder
      (extract (msg_Content m)) (mkDB ∅ []).
Proof.
  refine (proj2 (proj2 (proj2 (proj2
    (X18_ledger_changes_only_on_results_of_Wordle (fun s => s) noFaults
       noFaults "carol" mapOrder "1"
       (mkMessageCreate wordle "Results: 1/6 @alice" "general")
       (mkDB ∅ []) _))))).
  intros Heq. apply (f_equal (fun d => table d !! "alice")) in Heq.
  vm_compute in Heq. discriminate Heq.
Defined.

Lemma X19_leaderboard_command_any_case_witness :
  let m := mkMessageCreate someone "!LeaderBoard please" "general" in
  onMessageCreate (fun s => s) noFaults noFaults "carol" mapOrder "1"
    m (mkDB ∅ [])
  = (mkDB ∅ [],
     map (fun reply => ("general", reply))
         (sendLeaderboard noFaults mapOrder (mkDB ∅ []))).
Proof.
  apply (X19_leaderboard_command_any_case (fun s => s) noFaults noFaults
           "carol" mapOrder "1"
           (mkMessageCreate someone "!LeaderBoard please" "general")
           (mkDB ∅ []) (B "!LeaderBoard") (B " please")).
  - discriminate.
  - intros [H _]. discriminate H.
  - reflexivity.
  - reflexivity.
  - reflexivity.
Defined.

Lemma X20_results_message_any_case_witness :
  let m := mkMessageCreate wordle "Your RESULTS: 1/6 @alice" "general" in
  let db' := updateScoresBasedOnResults noFaults "carol" mapOrder
               (extract (msg_Content m)) (mkDB ∅ []) in
  ∃ command,
    onMessageCreate (fun s => s) noFaults noFaults "carol" mapOrder "1"
      m (mkDB ∅ [])
    = (db', command
            ++ (msg_ChannelID m, Acknowledgement)
               :: map (fun reply => (msg_ChannelID m, reply))
                      (sendLeaderboard noFaults mapOrder db'))
    ∧ (command = []
       ∨ command = map (fun reply => (msg_ChannelID m, reply))
                       (sendLeaderboard noFaults mapOrder (mkDB ∅ []))).
Proof.
  apply (X20_results_message_any_case (fun s => s) noFaults noFaults
           "carol" mapOrder "1"
           (mkMessageCreate wordle "Your RESULTS: 1/6 @alice" "general")
           (mkDB ∅ []) (B "Your ") (B "RESULTS") (B ": 1/6 @alice")).
  - discriminate.
  - reflexivity.
  - reflexivity.
  - reflexivity.
  - reflexivity.
  - reflexivity.
Defined.
